(** * NotationPlayback: loop boundaries, play time, play position, sound flags

    A shallow embedding of [src/notation/internal/notationplayback.cpp]
    (class [mu::notation::NotationPlayback]) and the properties its
    specification states about it.

    Conventions of the embedding.
    - An [int] / [tick_t] is a [Z]; none of the embedded functions does
      arithmetic on machine integers, so no wrap-around arises.
    - A [double] / [secs_t] is a primitive binary64 [float].
    - A pointer that may be null is an [option]; dereferencing a null
      pointer makes the embedded function return [None].
    - Observable effects (notifications, channel sends, reloads of the
      playback model) are recorded in the state. *)

From Stdlib Require Import ZArith List Bool Lia PrimFloat.
From stdpp Require Import base option list gmap strings.

Local Open Scope Z_scope.

(** ** Engraving types used by the playback layer *)

(** Modelled from the spec: [mu::engraving::Fraction] is declared in the
    engraving module, not next to notationplayback.cpp.  The spec treats
    every score position as an integer tick ("Tick: integer musical-time
    unit"), so a position is represented by its tick count; [fromTicks] and
    [ticks] then are mutually inverse and the order on positions is the
    order on ticks. *)
Module Fraction.
Definition t : Type := Z.
Definition fromTicks (ticks : Z) : t := ticks.
Definition ticks (f : t) : Z := f.
Definition zero : t := 0. (* Fraction(0, 1) *)
Definition add (a b : t) : t := a + b.
Definition geb (a b : t) : bool := b <=? a.
Definition leb (a b : t) : bool := a <=? b.
Definition gtb (a b : t) : bool := b <? a.
End Fraction.

(** Modelled from the spec: [muse::secs_t] is declared in the framework.
    It holds a [double]; its [+=] adds seconds and its [==] is an "exact
    equality compare on the seconds scalar", that is the IEEE comparison of
    the two doubles. *)
Module secs_t.
Definition t : Type := float.
Definition add (a b : t) : t := PrimFloat.add a b.
Definition eqb (a b : t) : bool := PrimFloat.eqb a b.
End secs_t.

(** Addresses of engraving objects ([EngravingObject*], [StaffText*]). *)
Definition ptr : Type := nat.

(** [InstrumentTrackId]: part id and instrument id. *)
Definition InstrumentTrackId : Type := (N * string)%type.

(** A chord/rest segment, reduced to its annotation pointers (any of which
    may be null). *)
Record Segment : Type := {
  annotations : list (option ptr)
}.

(** A measure: start tick, end tick and its chord/rest segments in order. *)
Module Measure.
Record t : Type := {
  tick : Fraction.t;
  endTick : Fraction.t;
  segments : list Segment
}.
End Measure.

(** What the playback layer asks of a [RepeatList]. *)
Module RepeatList.
Record t : Type := {
  ticks : Z;
  tick2utick : Z -> Z;
  utick2tick : Z -> Z
}.
End RepeatList.

(** The part of [mu::engraving::Score] the playback layer reads and writes.
    The query functions of the score (repeat list, tempo map, time-signature
    map) are fields: they are parameters of the embedding. *)
Module Score.
Record t : Type := {
  loopInTick : Fraction.t;
  loopOutTick : Fraction.t;
  pos : Fraction.t;                 (* Score::pos(): current selection *)
  inputStateTicks : Fraction.t;     (* inputState().ticks() *)
  measures : list Measure.t;
  repeatList : bool -> RepeatList.t;
  utick2utime : Z -> secs_t.t;
  utime2utick : secs_t.t -> Z;
  bar2tick : Z -> Z -> Z;           (* sigmap()->bar2tick *)
  tempoMultiplier : float           (* tempomap()->tempoMultiplier().val *)
}.

(** Null when the score has no measures. *)
Definition firstMeasure (s : t) : option Measure.t := head (measures s).
Definition lastMeasure (s : t) : option Measure.t := last (measures s).

(** Modelled from the spec: the bare store behind [Score::setLoopInTick],
    which is defined in the engraving module ("then set loopIn = tick"): it
    stores the tick as it is.  [BoundedScore.setLoopInTick] below is the
    store that also keeps the bounds of the spec's data model. *)
Definition setLoopInTick (tick : Fraction.t) (s : t) : t :=
  {| loopInTick := tick; loopOutTick := loopOutTick s; pos := pos s;
     inputStateTicks := inputStateTicks s; measures := measures s;
     repeatList := repeatList s; utick2utime := utick2utime s;
     utime2utick := utime2utick s; bar2tick := bar2tick s;
     tempoMultiplier := tempoMultiplier s |}.

(** Modelled from the spec: the bare store behind [Score::setLoopOutTick],
    which is defined in the engraving module ("then set loopOut = tick"): it
    stores the tick as it is.  [BoundedScore.setLoopOutTick] below is the
    store that also keeps the bounds of the spec's data model. *)
Definition setLoopOutTick (tick : Fraction.t) (s : t) : t :=
  {| loopInTick := loopInTick s; loopOutTick := tick; pos := pos s;
     inputStateTicks := inputStateTicks s; measures := measures s;
     repeatList := repeatList s; utick2utime := utick2utime s;
     utime2utick := utime2utick s; bar2tick := bar2tick s;
     tempoMultiplier := tempoMultiplier s |}.
End Score.

(** ** Loop boundaries on the score *)

(** [enum BoundaryTick : tick_t] is declared in notationtypes.h; the values
    of its sentinels are parameters. *)
Class BoundaryTick : Type := {
  FirstScoreTick : Z;
  SelectedNoteTick : Z;
  LastScoreTick : Z
}.

Inductive LoopBoundaryType : Type := Unknown | LoopIn | LoopOut.

Section LoopBoundarySetters.
Context `{BT : BoundaryTick}.

(** [NotationPlayback::addLoopIn]; the argument [s] is the object [score()]
    points to, the result is [None] when a null [lastMeasure()] is
    dereferenced. *)
Definition addLoopIn (_tick : Z) (s : Score.t) : option Score.t :=
  let tick := Fraction.fromTicks _tick in
  let tick := if _tick =? SelectedNoteTick then Score.pos s else tick in
  s1 ← (if Fraction.geb tick (Score.loopOutTick s)
        then m ← Score.lastMeasure s;
             Some (Score.setLoopOutTick (Measure.endTick m) s)
        else Some s);
  Some (Score.setLoopInTick tick s1).

(** [NotationPlayback::addLoopOut]. *)
Definition addLoopOut (_tick : Z) (s : Score.t) : option Score.t :=
  let tick := Fraction.fromTicks _tick in
  let tick := if _tick =? SelectedNoteTick
              then Fraction.add (Score.pos s) (Score.inputStateTicks s)
              else tick in
  '(tick, s1) ←
    (if Fraction.leb tick (Score.loopInTick s)
     then Some (tick, Score.setLoopInTick Fraction.zero s)
     else m ← Score.lastMeasure s;
          Some (if Fraction.gtb tick (Measure.endTick m)
                then Measure.endTick m else tick, s));
  Some (Score.setLoopOutTick tick s1).

(** [NotationPlayback::addLoopBoundary]. *)
Definition addLoopBoundary (boundaryType : LoopBoundaryType) (tick : Z)
    (s : Score.t) : option Score.t :=
  tick ←
    (if tick =? FirstScoreTick
     then m ← Score.firstMeasure s; Some (Fraction.ticks (Measure.tick m))
     else if tick =? LastScoreTick
     then m ← Score.lastMeasure s; Some (Fraction.ticks (Measure.endTick m))
     else Some tick);
  match boundaryType with
  | LoopIn => addLoopIn tick s
  | LoopOut => addLoopOut tick s
  | Unknown => Some s
  end.

(** A call of one of the two setters, and a sequence of such calls. *)
Inductive LoopCall : Type :=
| CallAddLoopIn (_tick : Z)
| CallAddLoopOut (_tick : Z).

Definition runLoopCall (c : LoopCall) (s : Score.t) : option Score.t :=
  match c with
  | CallAddLoopIn t => addLoopIn t s
  | CallAddLoopOut t => addLoopOut t s
  end.

Fixpoint runLoopCalls (cs : list LoopCall) (s : Score.t) : option Score.t :=
  match cs with
  | [] => Some s
  | c :: cs' => s' ← runLoopCall c s; runLoopCalls cs' s'
  end.

(** The tick a call works with once the selection sentinel is resolved. *)
Definition resolvedTick (c : LoopCall) (s : Score.t) : Fraction.t :=
  match c with
  | CallAddLoopIn t =>
      if t =? SelectedNoteTick then Score.pos s else Fraction.fromTicks t
  | CallAddLoopOut t =>
      if t =? SelectedNoteTick
      then Fraction.add (Score.pos s) (Score.inputStateTicks s)
      else Fraction.fromTicks t
  end.

End LoopBoundarySetters.


(** ** The loop setters over a store *)

(** [Score::setLoopInTick] and [Score::setLoopOutTick] are not defined next
    to notationplayback.cpp.  Here are [addLoopIn], [addLoopOut] and the run
    of a sequence of calls once more, with the two stores as parameters;
    the functions above are these at the bare stores of [Score]. *)
Module OverStore.
Section Setters.
Context `{BT : BoundaryTick}.
Variables setLoopInTick setLoopOutTick : Fraction.t -> Score.t -> Score.t.

(** [NotationPlayback::addLoopIn]. *)
Definition addLoopIn (_tick : Z) (s : Score.t) : option Score.t :=
  let tick := Fraction.fromTicks _tick in
  let tick := if _tick =? SelectedNoteTick then Score.pos s else tick in
  s1 ← (if Fraction.geb tick (Score.loopOutTick s)
        then m ← Score.lastMeasure s;
             Some (setLoopOutTick (Measure.endTick m) s)
        else Some s);
  Some (setLoopInTick tick s1).

(** [NotationPlayback::addLoopOut]. *)
Definition addLoopOut (_tick : Z) (s : Score.t) : option Score.t :=
  let tick := Fraction.fromTicks _tick in
  let tick := if _tick =? SelectedNoteTick
              then Fraction.add (Score.pos s) (Score.inputStateTicks s)
              else tick in
  '(tick, s1) ←
    (if Fraction.leb tick (Score.loopInTick s)
     then Some (tick, setLoopInTick Fraction.zero s)
     else m ← Score.lastMeasure s;
          Some (if Fraction.gtb tick (Measure.endTick m)
                then Measure.endTick m else tick, s));
  Some (setLoopOutTick tick s1).

Definition runLoopCall (c : LoopCall) (s : Score.t) : option Score.t :=
  match c with
  | CallAddLoopIn t => addLoopIn t s
  | CallAddLoopOut t => addLoopOut t s
  end.

Fixpoint runLoopCalls (cs : list LoopCall) (s : Score.t) : option Score.t :=
  match cs with
  | [] => Some s
  | c :: cs' => s' ← runLoopCall c s; runLoopCalls cs' s'
  end.
End Setters.
End OverStore.

Module BoundedScore.
(** Modelled from the spec: what [Score::setLoopInTick] and
    [Score::setLoopOutTick], defined in the engraving module, keep of a
    tick.  The data model has "loopInTick: integer ≥ 0" and "loopOutTick
    never exceeds the score's last tick", "always": a tick below 0 is kept
    as 0 and a tick beyond the end of the last measure as that end. *)
Definition boundTick (s : Score.t) (tick : Fraction.t) : Fraction.t :=
  match Score.lastMeasure s with
  | Some m => Z.max 0 (Z.min tick (Measure.endTick m))
  | None => Z.max 0 tick
  end.

(** Modelled from the spec: [Score::setLoopInTick] as the store that keeps
    the bounds of the data model ("then set loopIn = tick", with
    "loopInTick: integer ≥ 0" and the last tick as upper bound). *)
Definition setLoopInTick (tick : Fraction.t) (s : Score.t) : Score.t :=
  Score.setLoopInTick (boundTick s tick) s.

(** Modelled from the spec: [Score::setLoopOutTick] as the store that keeps
    the bounds of the data model ("then set loopOut = tick", with
    "loopOutTick never exceeds the score's last tick"). *)
Definition setLoopOutTick (tick : Fraction.t) (s : Score.t) : Score.t :=
  Score.setLoopOutTick (boundTick s tick) s.
End BoundedScore.

(** A pair of stores that keep a tick of the score, one between 0 and the
    end of the last measure, as it is.  The bare stores and the bounded
    stores both do. *)
Definition storesScoreTicks
    (setLoopInTick setLoopOutTick : Fraction.t -> Score.t -> Score.t)
    : Prop :=
  forall tick s m,
    Score.lastMeasure s = Some m ->
    0 <= Fraction.ticks tick <= Fraction.ticks (Measure.endTick m) ->
    setLoopInTick tick s = Score.setLoopInTick tick s
    /\ setLoopOutTick tick s = Score.setLoopOutTick tick s.


(** ** Engraving objects and their memory *)

(** A sound flag is either created for a staff text by
    [Factory::createSoundFlag] or a [linkedClone] of another flag. *)
Inductive SoundFlag : Type :=
| createSoundFlag (parent : ptr)
| linkedClone (original : SoundFlag).

(** An engraving object as the playback layer sees it.  [links] is the
    object's [LinkedObjects] list (null when the object is not linked); its
    entries may be null. *)
Module EngravingObject.
Record t : Type := {
  isStaffText : bool;
  soundFlag : option SoundFlag;
  links : option (list (option ptr));
  tick : Fraction.t;
  instrumentTrackId : InstrumentTrackId  (* makeInstrumentTrackId(item) *)
}.

Definition hasSoundFlag (o : t) : bool :=
  match soundFlag o with Some _ => true | None => false end.

Definition setSoundFlag (f : option SoundFlag) (o : t) : t :=
  {| isStaffText := isStaffText o; soundFlag := f; links := links o;
     tick := tick o; instrumentTrackId := instrumentTrackId o |}.
End EngravingObject.

(** Every non-null pointer addresses an object. *)
Definition Heap : Type := ptr -> EngravingObject.t.

Definition heapUpdate (p : ptr) (f : EngravingObject.t -> EngravingObject.t)
    (h : Heap) : Heap :=
  fun q => if decide (q = p) then f (h q) else h q.

(** Modelled from the spec: [StaffText::add] is defined in the engraving
    module; "a StaffText owns at most one SoundFlag child", so adding a flag
    stores it as that child. *)
Definition add (staffText : ptr) (flag : SoundFlag) (h : Heap) : Heap :=
  heapUpdate staffText (EngravingObject.setSoundFlag (Some flag)) h.

(** Modelled from the spec: [staffText->remove(staffText->soundFlag())]
    takes the staff text's one sound flag away. *)
Definition remove (staffText : ptr) (h : Heap) : Heap :=
  heapUpdate staffText (EngravingObject.setSoundFlag None) h.

Definition hasSoundFlag (h : Heap) (p : ptr) : bool :=
  EngravingObject.hasSoundFlag (h p).

(** Modelled from the spec: [Measure::first] and [Segment::next1] are
    defined in the engraving module; from the first measure they walk "the
    score's ranked sequence of rhythmic segments (chord/rest positions) in
    tick order", here the segments of all measures in order. *)
Definition chordRestSegments (s : Score.t) : list Segment :=
  concat (Measure.segments <$> Score.measures s).

(** ** The playback object *)

Record LoopBoundaries : Type := {
  loopInTick : Z;
  loopOutTick : Z;
  enabled : bool
}.

(** Modelled from the spec: the comparison operators of [LoopBoundaries]
    are declared in notationtypes.h; the tuple is "compared structurally". *)
#[global] Instance LoopBoundaries_eq_dec : EqDecision LoopBoundaries.
Proof. solve_decision. Defined.

(** Result of a fallible query: [RetVal<T>] with the one error code this
    file produces. *)
Inductive Err : Type := Undefined.

Inductive RetVal (T : Type) : Type :=
| make_ok (val : T)
| make_ret (err : Err).
Arguments make_ok {T} val.
Arguments make_ret {T} err.

(** [static constexpr double PLAYBACK_TAIL_SECS = 3;] *)
Definition PLAYBACK_TAIL_SECS : float := 3%float.

(** The state of a [NotationPlayback] together with the objects it reaches:
    the engraving objects, the score [m_getScore->score()] returns (null
    when none is loaded) and the playback model's repeat flag.  The last
    four fields record what the object has emitted. *)
Record NotationPlayback : Type := {
  heap : Heap;
  score : option Score.t;
  isPlayRepeatsEnabled : bool;
  m_loopBoundaries : LoopBoundaries;
  m_totalPlayTime : secs_t.t;
  playbackModelReloads : nat;             (* m_playbackModel.reload() *)
  notationChangedNotified : nat;          (* m_notationChanged.notify() *)
  loopBoundariesChangedNotified : nat;    (* m_loopBoundariesChanged.notify() *)
  totalPlayTimeChangedSent : list secs_t.t (* m_totalPlayTimeChanged.send *)
}.

Definition setHeap (h : Heap) (np : NotationPlayback) : NotationPlayback :=
  {| heap := h; score := score np;
     isPlayRepeatsEnabled := isPlayRepeatsEnabled np;
     m_loopBoundaries := m_loopBoundaries np;
     m_totalPlayTime := m_totalPlayTime np;
     playbackModelReloads := playbackModelReloads np;
     notationChangedNotified := notationChangedNotified np;
     loopBoundariesChangedNotified := loopBoundariesChangedNotified np;
     totalPlayTimeChangedSent := totalPlayTimeChangedSent np |}.

(** [m_loopBoundaries = b; m_loopBoundariesChanged.notify();] *)
Definition setLoopBoundariesAndNotify (b : LoopBoundaries)
    (np : NotationPlayback) : NotationPlayback :=
  {| heap := heap np; score := score np;
     isPlayRepeatsEnabled := isPlayRepeatsEnabled np;
     m_loopBoundaries := b;
     m_totalPlayTime := m_totalPlayTime np;
     playbackModelReloads := playbackModelReloads np;
     notationChangedNotified := notationChangedNotified np;
     loopBoundariesChangedNotified := S (loopBoundariesChangedNotified np);
     totalPlayTimeChangedSent := totalPlayTimeChangedSent np |}.

(** [m_totalPlayTime = v; m_totalPlayTimeChanged.send(m_totalPlayTime);] *)
Definition setTotalPlayTimeAndSend (v : secs_t.t)
    (np : NotationPlayback) : NotationPlayback :=
  {| heap := heap np; score := score np;
     isPlayRepeatsEnabled := isPlayRepeatsEnabled np;
     m_loopBoundaries := m_loopBoundaries np;
     m_totalPlayTime := v;
     playbackModelReloads := playbackModelReloads np;
     notationChangedNotified := notationChangedNotified np;
     loopBoundariesChangedNotified := loopBoundariesChangedNotified np;
     totalPlayTimeChangedSent := totalPlayTimeChangedSent np ++ [v] |}.

(** [m_playbackModel.reload()]: the playback model is outside this file, a
    reload is only counted. *)
Definition reload (np : NotationPlayback) : NotationPlayback :=
  {| heap := heap np; score := score np;
     isPlayRepeatsEnabled := isPlayRepeatsEnabled np;
     m_loopBoundaries := m_loopBoundaries np;
     m_totalPlayTime := m_totalPlayTime np;
     playbackModelReloads := S (playbackModelReloads np);
     notationChangedNotified := notationChangedNotified np;
     loopBoundariesChangedNotified := loopBoundariesChangedNotified np;
     totalPlayTimeChangedSent := totalPlayTimeChangedSent np |}.

Definition countNotationChanged (np : NotationPlayback) : NotationPlayback :=
  {| heap := heap np; score := score np;
     isPlayRepeatsEnabled := isPlayRepeatsEnabled np;
     m_loopBoundaries := m_loopBoundaries np;
     m_totalPlayTime := m_totalPlayTime np;
     playbackModelReloads := playbackModelReloads np;
     notationChangedNotified := S (notationChangedNotified np);
     loopBoundariesChangedNotified := loopBoundariesChangedNotified np;
     totalPlayTimeChangedSent := totalPlayTimeChangedSent np |}.

(** [NotationPlayback::updateLoopBoundaries]; [score()] is dereferenced
    without a check. *)
Definition updateLoopBoundaries (np : NotationPlayback)
    : option NotationPlayback :=
  s ← score np;
  let newBoundaries :=
    {| loopInTick := Fraction.ticks (Score.loopInTick s);
       loopOutTick := Fraction.ticks (Score.loopOutTick s);
       enabled := enabled (m_loopBoundaries np) |} in
  Some (if decide (m_loopBoundaries np ≠ newBoundaries)
        then setLoopBoundariesAndNotify newBoundaries np
        else np).

(** [m_notationChanged.notify()]: the notification is counted and the
    handler the constructor subscribed, [updateLoopBoundaries], runs. *)
Definition notationChanged_notify (np : NotationPlayback)
    : option NotationPlayback :=
  updateLoopBoundaries (countNotationChanged np).
Arguments notationChanged_notify : simpl never.

(** [NotationPlayback::updateTotalPlayTime]. *)
Definition updateTotalPlayTime (np : NotationPlayback) : NotationPlayback :=
  match score np with
  | None => np
  | Some score =>
      let lastTick :=
        RepeatList.ticks (Score.repeatList score (isPlayRepeatsEnabled np)) in
      let newPlayTime := Score.utick2utime score lastTick in
      let newPlayTime := secs_t.add newPlayTime PLAYBACK_TAIL_SECS in
      if secs_t.eqb (m_totalPlayTime np) newPlayTime
      then np
      else setTotalPlayTimeAndSend newPlayTime np
  end.

Definition totalPlayTime (np : NotationPlayback) : secs_t.t :=
  m_totalPlayTime np.

(** ** Conversions and play position *)

(** [NotationPlayback::playedTickToSec]. *)
Definition playedTickToSec (np : NotationPlayback) (tick : Z) : secs_t.t :=
  match score np with
  | Some s => Score.utick2utime s tick
  | None => 0%float
  end.

(** [NotationPlayback::secToPlayedTick]. *)
Definition secToPlayedTick (np : NotationPlayback) (sec : secs_t.t) : Z :=
  match score np with
  | None => 0
  | Some s => Score.utime2utick s sec
  end.

(** [NotationPlayback::secToTick]. *)
Definition secToTick (np : NotationPlayback) (sec : secs_t.t) : Z :=
  match score np with
  | None => 0
  | Some s =>
      let utick := secToPlayedTick np sec in
      RepeatList.utick2tick
        (Score.repeatList s (isPlayRepeatsEnabled np)) utick
  end.

(** [NotationPlayback::playPositionTickByRawTick]. *)
Definition playPositionTickByRawTick (np : NotationPlayback) (tick : Z)
    : RetVal Z :=
  match score np with
  | None => make_ret Undefined
  | Some s =>
      let playbackTick :=
        RepeatList.tick2utick
          (Score.repeatList s (isPlayRepeatsEnabled np)) tick in
      make_ok playbackTick
  end.

(** [NotationPlayback::playPositionTickByElement]; [IF_ASSERT_FAILED(element)]
    runs its block when [element] is null. *)
Definition playPositionTickByElement (np : NotationPlayback)
    (element : option ptr) : RetVal Z :=
  match element with
  | None => make_ret Undefined
  | Some e =>
      match score np with
      | None => make_ret Undefined
      | Some _ =>
          playPositionTickByRawTick np
            (Fraction.ticks (EngravingObject.tick (heap np e)))
      end
  end.

(** [NotationPlayback::beatToRawTick]. *)
Definition beatToRawTick (np : NotationPlayback) (measureIndex beatIndex : Z)
    : Z :=
  match score np with
  | Some s => Score.bar2tick s measureIndex beatIndex
  | None => 0
  end.

(** [NotationPlayback::tempoMultiplier]. *)
Definition tempoMultiplier (np : NotationPlayback) : float :=
  match score np with
  | Some s => Score.tempoMultiplier s
  | None => 1%float
  end.

(** [NotationPlayback::setLoopBoundariesEnabled]. *)
Definition setLoopBoundariesEnabled (enabled' : bool) (np : NotationPlayback)
    : NotationPlayback :=
  if Bool.eqb (enabled (m_loopBoundaries np)) enabled'
  then np
  else setLoopBoundariesAndNotify
         {| loopInTick := loopInTick (m_loopBoundaries np);
            loopOutTick := loopOutTick (m_loopBoundaries np);
            enabled := enabled' |} np.

(** ** Sound flags *)

(** The loop over [*links] in [doAddSoundFlag]. *)
Definition addLinkedClone (staffText : ptr) (soundFlag : SoundFlag)
    (h : Heap) (obj : option ptr) : Heap :=
  match obj with
  | Some o =>
      if EngravingObject.isStaffText (h o) && negb (bool_decide (o = staffText))
      then add o (linkedClone soundFlag) h
      else h
  | None => h
  end.

(** [NotationPlayback::doAddSoundFlag]: the new memory and the result. *)
Definition doAddSoundFlag (staffText : option ptr) (h : Heap) : Heap * bool :=
  match staffText with
  | None => (h, false)
  | Some p =>
      if hasSoundFlag h p then (h, false)
      else
        let soundFlag := createSoundFlag p in
        let h1 := add p soundFlag h in
        match EngravingObject.links (h1 p) with
        | None => (h1, true)
        | Some links => (fold_left (addLinkedClone p soundFlag) links h1, true)
        end
  end.

(** The loop of [addSoundFlags]: [added |= doAddSoundFlag(staffText)]. *)
Definition addSoundFlagsLoop (staffTextList : list (option ptr))
    (h : Heap) (added : bool) : Heap * bool :=
  fold_left (fun '(h, added) staffText =>
               let '(h', b) := doAddSoundFlag staffText h in
               (h', added || b))
            staffTextList (h, added).

(** [NotationPlayback::addSoundFlags]; [score()->update()] dereferences
    [score()] and has no effect on the state kept here. *)
Definition addSoundFlags (staffTextList : list (option ptr))
    (np : NotationPlayback) : option NotationPlayback :=
  match staffTextList with
  | [] => Some np
  | _ =>
      let '(h, added) := addSoundFlagsLoop staffTextList (heap np) false in
      let np := setHeap h np in
      if added
      then _ ← score np; notationChanged_notify np
      else Some np
  end.

(** The body of the inner loop of [collectStaffText]. *)
Definition collectAnnotation (h : Heap) (trackIdSet : gset InstrumentTrackId)
    (withSoundFlags : bool) (result : list ptr) (annotation : option ptr)
    : list ptr :=
  match annotation with
  | None => result
  | Some a =>
      if negb (EngravingObject.isStaffText (h a)) then result
      else
        let hasSoundFlag := hasSoundFlag h a in
        if withSoundFlags && negb hasSoundFlag then result
        else if negb withSoundFlags && hasSoundFlag then result
        else
          let trackId := EngravingObject.instrumentTrackId (h a) in
          if bool_decide (trackId ∈ trackIdSet)
          then result ++ [a]
          else result
  end.

(** [NotationPlayback::collectStaffText]; [IF_ASSERT_FAILED(score)] returns
    the empty result when no score is loaded. *)
Definition collectStaffText (np : NotationPlayback)
    (trackIdSet : gset InstrumentTrackId) (withSoundFlags : bool)
    : list ptr :=
  let result := [] in
  if bool_decide (trackIdSet = ∅) then result
  else
    match score np with
    | None => result
    | Some score =>
        match Score.firstMeasure score with
        | None => result
        | Some fm =>
            fold_left
              (fun result seg =>
                 fold_left (collectAnnotation (heap np) trackIdSet withSoundFlags)
                           (annotations seg) result)
              (chordRestSegments score) result
        end
    end.

(** The loop over [*links] in [removeSoundFlags]. *)
Definition removeLinkedFlag (staffText : ptr) (h : Heap) (obj : option ptr)
    : Heap :=
  match obj with
  | Some o =>
      if EngravingObject.isStaffText (h o) && negb (bool_decide (o = staffText))
      then if negb (hasSoundFlag h o) then h else remove o h
      else h
  | None => h
  end.

(** The body of the outer loop of [removeSoundFlags]. *)
Definition removeSoundFlag (h : Heap) (staffText : ptr) : Heap :=
  if negb (hasSoundFlag h staffText) then h
  else
    let h1 := remove staffText h in
    match EngravingObject.links (h1 staffText) with
    | None => h1
    | Some links => fold_left (removeLinkedFlag staffText) links h1
    end.

(** [NotationPlayback::removeSoundFlags]. *)
Definition removeSoundFlags (trackIdSet : gset InstrumentTrackId)
    (np : NotationPlayback) : option NotationPlayback :=
  let staffTextList := collectStaffText np trackIdSet true in
  match staffTextList with
  | [] => Some np
  | _ =>
      let h := fold_left removeSoundFlag staffTextList (heap np) in
      let np := setHeap h np in
      _ ← score np;
      notationChanged_notify (reload np)
  end.

(** ** Predicates on the engraving objects *)

Definition lacksSoundFlag (h : Heap) (staffText : option ptr) : bool :=
  match staffText with
  | Some p => negb (hasSoundFlag h p)
  | None => false
  end.

(** Linked objects share one [LinkedObjects] list: a staff text found in the
    links of an object has the same links. *)
Definition linksShared (h : Heap) : Prop :=
  forall p l q,
    EngravingObject.links (h p) = Some l -> Some q ∈ l ->
    EngravingObject.isStaffText (h q) = true ->
    EngravingObject.links (h q) = Some l.

(** [h] has the objects of [h0] with the same kind and links and at least
    the flags of [h0]. *)
Definition extendsFlags (h0 h : Heap) : Prop :=
  forall q,
    EngravingObject.isStaffText (h q) = EngravingObject.isStaffText (h0 q)
    /\ EngravingObject.links (h q) = EngravingObject.links (h0 q)
    /\ (hasSoundFlag h0 q = true -> hasSoundFlag h q = true).

(** Every object flagged since [h0] has all staff texts of its links
    flagged. *)
Definition flagsClosed (h0 h : Heap) : Prop :=
  forall p l q,
    hasSoundFlag h0 p = false -> hasSoundFlag h p = true ->
    EngravingObject.links (h0 p) = Some l -> Some q ∈ l ->
    EngravingObject.isStaffText (h0 q) = true ->
    hasSoundFlag h q = true.

(** Where the flag of [q] in [h] comes from, for a call of [addSoundFlags]
    with the list [l] on the memory [h0]: it is the flag [q] had; or [q] is
    a listed staff text that lacked a flag and holds the flag created for
    it; or [q] is another staff text in the links of a listed staff text [p]
    that lacked a flag, and holds a linked clone of the flag created for
    [p]. *)
Definition flagAttached (h0 : Heap) (l : list (option ptr)) (h : Heap)
    (q : ptr) : Prop :=
  EngravingObject.soundFlag (h q) = EngravingObject.soundFlag (h0 q)
  \/ (Some q ∈ l /\ hasSoundFlag h0 q = false
      /\ EngravingObject.soundFlag (h q) = Some (createSoundFlag q))
  \/ (exists p lk,
        p <> q /\ Some p ∈ l /\ hasSoundFlag h0 p = false
        /\ EngravingObject.links (h0 p) = Some lk /\ Some q ∈ lk
        /\ EngravingObject.isStaffText (h0 q) = true
        /\ EngravingObject.soundFlag (h q)
           = Some (linkedClone (createSoundFlag p))).

(** ** Concrete scores used by the examples *)

(** The sentinel values [-3, -2, -1]. *)
Definition exampleBoundaryTick : BoundaryTick :=
  {| FirstScoreTick := -3; SelectedNoteTick := -2; LastScoreTick := -1 |}.

Definition exampleRepeatList (expand : bool) : RepeatList.t :=
  {| RepeatList.ticks := if expand then 4000 else 2000;
     RepeatList.tick2utick := fun t => if expand then t + 2000 else t;
     RepeatList.utick2tick := fun u => if expand then u - 2000 else u |}.

Definition exampleMeasure : Measure.t :=
  {| Measure.tick := 0; Measure.endTick := 2000;
     Measure.segments := [ {| annotations := [Some 1%nat; None; Some 2%nat] |};
                           {| annotations := [Some 3%nat] |} ] |}.

(** A one-measure score ending at tick 2000 with loop region [in, out]. *)
Definition exampleScore (loopIn loopOut : Z) : Score.t :=
  {| Score.loopInTick := loopIn; Score.loopOutTick := loopOut;
     Score.pos := 480; Score.inputStateTicks := 240;
     Score.measures := [exampleMeasure];
     Score.repeatList := exampleRepeatList;
     Score.utick2utime := fun u => if u =? 4000 then 8%float else 4%float;
     Score.utime2utick := fun _ => 960;
     Score.bar2tick := fun m b => m * 1920 + b * 480;
     Score.tempoMultiplier := 2%float |}.


(** ** Concrete playback states used by the examples *)

(** Objects 1 and 2 are linked staff texts without a sound flag, object 3
    is an unlinked staff text that carries one, every other address holds
    an item that is no staff text. *)
Definition exampleHeap : Heap := fun p =>
  match p with
  | 1%nat | 2%nat =>
      {| EngravingObject.isStaffText := true;
         EngravingObject.soundFlag := None;
         EngravingObject.links := Some [Some 1%nat; None; Some 2%nat];
         EngravingObject.tick := 960;
         EngravingObject.instrumentTrackId := (1%N, "violin"%string) |}
  | 3%nat =>
      {| EngravingObject.isStaffText := true;
         EngravingObject.soundFlag := Some (createSoundFlag 3%nat);
         EngravingObject.links := None;
         EngravingObject.tick := 1440;
         EngravingObject.instrumentTrackId := (2%N, "flute"%string) |}
  | _ =>
      {| EngravingObject.isStaffText := false;
         EngravingObject.soundFlag := None;
         EngravingObject.links := None;
         EngravingObject.tick := 0;
         EngravingObject.instrumentTrackId := (0%N, ""%string) |}
  end.

Definition examplePlayback (s : option Score.t) (b : LoopBoundaries)
    : NotationPlayback :=
  {| heap := exampleHeap; score := s; isPlayRepeatsEnabled := true;
     m_loopBoundaries := b; m_totalPlayTime := 0%float;
     playbackModelReloads := 0; notationChangedNotified := 0;
     loopBoundariesChangedNotified := 0; totalPlayTimeChangedSent := [] |}.

Definition defaultBoundaries : LoopBoundaries :=
  {| loopInTick := 0; loopOutTick := 0; enabled := false |}.

Definition loadedPlayback : NotationPlayback :=
  examplePlayback (Some (exampleScore 0 2000)) defaultBoundaries.

(** ** Further operations of the playback object *)

(** Modelled from the spec: [PlaybackModel::setPlayRepeats] belongs to the
    playback model; "repeat-expansion enabled" is a flag, and
    [isPlayRepeatsEnabled()] returns what was set last. *)
Definition setPlayRepeats (flag : bool) (np : NotationPlayback)
    : NotationPlayback :=
  {| heap := heap np; score := score np;
     isPlayRepeatsEnabled := flag;
     m_loopBoundaries := m_loopBoundaries np;
     m_totalPlayTime := m_totalPlayTime np;
     playbackModelReloads := playbackModelReloads np;
     notationChangedNotified := notationChangedNotified np;
     loopBoundariesChangedNotified := loopBoundariesChangedNotified np;
     totalPlayTimeChangedSent := totalPlayTimeChangedSent np |}.

(** The handler [NotationPlayback::init] subscribes to
    [configuration()->isPlayRepeatsChanged()]; [expandRepeats] is the value
    [configuration()->isPlayRepeatsEnabled()] returns when it runs. *)
Definition onIsPlayRepeatsChanged (expandRepeats : bool)
    (np : NotationPlayback) : NotationPlayback :=
  if negb (Bool.eqb expandRepeats (isPlayRepeatsEnabled np))
  then reload (setPlayRepeats expandRepeats np)
  else np.

(** [NotationPlayback::hasSoundFlags]: the loop over the set returns at the
    first track the playback model reports flags for.  The model's
    [hasSoundFlags(trackId)] is a parameter. *)
Definition hasSoundFlags (modelHasSoundFlags : InstrumentTrackId -> bool)
    (trackIdSet : gset InstrumentTrackId) : bool :=
  existsb modelHasSoundFlags (elements trackIdSet).

(** ** Further predicates *)

(** The non-null annotations of the chord/rest segments, in score order. *)
Definition annotationPointers (s : Score.t) : list ptr :=
  omap id (concat (annotations <$> chordRestSegments s)).

(** The test [collectStaffText] applies to a non-null annotation. *)
Definition isCollected (h : Heap) (trackIdSet : gset InstrumentTrackId)
    (withSoundFlags : bool) (a : ptr) : bool :=
  EngravingObject.isStaffText (h a)
  && Bool.eqb (hasSoundFlag h a) withSoundFlags
  && bool_decide (EngravingObject.instrumentTrackId (h a) ∈ trackIdSet).

(** [h'] differs from [h] at most in the sound flags. *)
Definition sameButFlags (h h' : Heap) : Prop :=
  forall q, EngravingObject.setSoundFlag None (h' q)
            = EngravingObject.setSoundFlag None (h q).

(** The example playback state with repeats not expanded. *)
Definition unexpandedPlayback : NotationPlayback :=
  setPlayRepeats false loadedPlayback.

(** * Properties *)

(** ** Loop boundaries *)

Section LoopBoundaryFacts.
Context `{BT : BoundaryTick}.

Ltac unfold_fraction :=
  unfold Fraction.geb, Fraction.leb, Fraction.gtb, Fraction.add,
    Fraction.zero, Fraction.fromTicks, Fraction.ticks, Fraction.t in *.

(** C4. For a tick [t] other than the current-selection sentinel,
    [addLoopIn t] first resets the loop-out marker to the end tick of the
    last measure when [t >= loopOutTick], and then sets the loop-in marker
    to [t]; when [t < loopOutTick] it sets the loop-in marker to [t] and
    leaves the loop-out marker as it is. *)
Theorem addLoopIn_spec (t : Z) (s : Score.t) (m : Measure.t) :
  t <> SelectedNoteTick ->
  Score.lastMeasure s = Some m ->
  addLoopIn t s =
    Some (if decide (Fraction.ticks (Score.loopOutTick s) <= t)
          then Score.setLoopInTick (Fraction.fromTicks t)
                 (Score.setLoopOutTick (Measure.endTick m) s)
          else Score.setLoopInTick (Fraction.fromTicks t) s).
Proof.
  intros Hsel Hlast. unfold addLoopIn.
  destruct (Z.eqb_spec t SelectedNoteTick) as [-> | _]; [done |].
  rewrite Hlast. unfold_fraction.
  destruct (Z.leb_spec (Score.loopOutTick s) t); case_decide;
    solve [reflexivity | lia].
Qed.

(** C5. For a tick [t] other than the current-selection sentinel,
    [addLoopOut t] resets the loop-in marker to 0 and sets the loop-out
    marker to [t] when [t <= loopInTick]; otherwise it sets the loop-out
    marker to [t] clamped to the end tick of the last measure and leaves
    the loop-in marker as it is. *)
Theorem addLoopOut_spec (t : Z) (s : Score.t) (m : Measure.t) :
  t <> SelectedNoteTick ->
  Score.lastMeasure s = Some m ->
  addLoopOut t s =
    Some (if decide (t <= Fraction.ticks (Score.loopInTick s))
          then Score.setLoopOutTick (Fraction.fromTicks t)
                 (Score.setLoopInTick Fraction.zero s)
          else Score.setLoopOutTick
                 (Fraction.fromTicks
                    (Z.min t (Fraction.ticks (Measure.endTick m)))) s).
Proof.
  intros Hsel Hlast. unfold addLoopOut.
  destruct (Z.eqb_spec t SelectedNoteTick) as [-> | _]; [done |].
  rewrite Hlast. unfold_fraction.
  destruct (Z.leb_spec t (Score.loopInTick s)); case_decide; try lia;
    [reflexivity |]. cbn.
  destruct (Z.ltb_spec (Measure.endTick m) t);
    [rewrite Z.min_r by lia | rewrite Z.min_l by lia]; reflexivity.
Qed.

(** The functions over a store, at the bare stores, are the functions of
    the first part. *)
Lemma runLoopCalls_bare (cs : list LoopCall) (s : Score.t) :
  OverStore.runLoopCalls Score.setLoopInTick Score.setLoopOutTick cs s
  = runLoopCalls cs s.
Proof. revert s. induction cs as [| c cs IH]; intros s; reflexivity. Qed.


End LoopBoundaryFacts.

(** Example 4 of the spec: state [{in:0, out:1000}], last tick 2000,
    [addLoopIn(1500)] gives [{in:1500, out:2000}]. *)
Lemma addLoopIn_spec_witness :
  1500 <> @SelectedNoteTick exampleBoundaryTick
  /\ Score.lastMeasure (exampleScore 0 1000) = Some exampleMeasure
  /\ @addLoopIn exampleBoundaryTick 1500 (exampleScore 0 1000)
     = Some (exampleScore 1500 2000).
Proof.
  assert (Hsel : 1500 <> @SelectedNoteTick exampleBoundaryTick) by (cbn; lia).
  split; [exact Hsel |]. split; [reflexivity |].
  exact (@addLoopIn_spec exampleBoundaryTick 1500 (exampleScore 0 1000)
           exampleMeasure Hsel eq_refl).
Defined.

(** Example 5 of the spec: state [{in:500, out:1000}], [addLoopOut(200)]
    gives [{in:0, out:200}]. *)
Lemma addLoopOut_spec_witness :
  200 <> @SelectedNoteTick exampleBoundaryTick
  /\ Score.lastMeasure (exampleScore 500 1000) = Some exampleMeasure
  /\ @addLoopOut exampleBoundaryTick 200 (exampleScore 500 1000)
     = Some (exampleScore 0 200).
Proof.
  assert (Hsel : 200 <> @SelectedNoteTick exampleBoundaryTick) by (cbn; lia).
  split; [exact Hsel |]. split; [reflexivity |].
  exact (@addLoopOut_spec exampleBoundaryTick 200 (exampleScore 500 1000)
           exampleMeasure Hsel eq_refl).
Defined.

(** The selection sentinel: the cursor is at tick 480 and the input state is
    240 ticks long. *)
Example addLoopOut_selection :
  @addLoopOut exampleBoundaryTick (-2) (exampleScore 0 2000)
  = Some (exampleScore 0 720)
  /\ @addLoopIn exampleBoundaryTick (-2) (exampleScore 0 2000)
     = Some (exampleScore 480 2000).
Proof. split; reflexivity. Qed.

(** A tick beyond the last measure is clamped by [addLoopOut]. *)
Example addLoopOut_clamps :
  @addLoopOut exampleBoundaryTick 5000 (exampleScore 500 1000)
  = Some (exampleScore 500 2000).
Proof. reflexivity. Qed.


(** What the bounded stores make of the two out-of-range calls: from
    [{in:0, out:1000}], [addLoopIn(5000)] gives [{in:2000, out:2000}] and
    [addLoopOut(-5)] gives [{in:0, out:0}]. *)
Example bounded_out_of_range :
  @OverStore.addLoopIn exampleBoundaryTick BoundedScore.setLoopInTick
    BoundedScore.setLoopOutTick 5000 (exampleScore 0 1000)
  = Some (exampleScore 2000 2000)
  /\ @OverStore.addLoopOut exampleBoundaryTick BoundedScore.setLoopInTick
       BoundedScore.setLoopOutTick (-5) (exampleScore 0 1000)
     = Some (exampleScore 0 0).
Proof. split; reflexivity. Qed.

(** ** Enabling the loop *)

(** C6. [setLoopBoundariesEnabled] called with the value the enabled flag
    already has returns the state as it is (same boundaries, no
    notification); a second call with the same value changes nothing, so two
    calls with one value notify at most once. *)
Theorem setLoopBoundariesEnabled_notifies_on_delta (b : bool)
    (np : NotationPlayback) :
  setLoopBoundariesEnabled (enabled (m_loopBoundaries np)) np = np
  /\ setLoopBoundariesEnabled b (setLoopBoundariesEnabled b np)
     = setLoopBoundariesEnabled b np
  /\ (loopBoundariesChangedNotified
        (setLoopBoundariesEnabled b (setLoopBoundariesEnabled b np))
      <= S (loopBoundariesChangedNotified np))%nat
  /\ enabled (m_loopBoundaries (setLoopBoundariesEnabled b np)) = b.
Proof.
  unfold setLoopBoundariesEnabled.
  destruct np as [h s r [i o e] t n1 n2 n3 l]; cbn.
  rewrite Bool.eqb_reflx. split; [reflexivity |].
  destruct (Bool.eqb_spec e b) as [-> | Hne]; cbn.
  - rewrite Bool.eqb_reflx. repeat split; cbn; lia.
  - rewrite Bool.eqb_reflx. repeat split; cbn; lia.
Qed.

(** The change is notified once when the flag really changes. *)
Example setLoopBoundariesEnabled_twice :
  loopBoundariesChangedNotified
    (setLoopBoundariesEnabled true
       (setLoopBoundariesEnabled true (examplePlayback None defaultBoundaries)))
  = 1%nat.
Proof. reflexivity. Qed.

(** ** Re-derivation of the loop boundaries *)

(** C9. When the score-changed notification fires for a loaded score, the
    loop-in and loop-out ticks are read again from the score's markers, the
    enabled flag keeps its value, nothing else of the playback object
    changes, and the loop-boundaries-changed notification fires exactly when
    the new tuple differs from the old one. *)
Theorem notationChanged_rederives_loopBoundaries (np : NotationPlayback)
    (s : Score.t) :
  score np = Some s ->
  let newBoundaries :=
    {| loopInTick := Fraction.ticks (Score.loopInTick s);
       loopOutTick := Fraction.ticks (Score.loopOutTick s);
       enabled := enabled (m_loopBoundaries np) |} in
  exists np',
    notationChanged_notify np = Some np'
    /\ m_loopBoundaries np' = newBoundaries
    /\ enabled (m_loopBoundaries np') = enabled (m_loopBoundaries np)
    /\ loopBoundariesChangedNotified np'
       = (if decide (m_loopBoundaries np = newBoundaries)
          then loopBoundariesChangedNotified np
          else S (loopBoundariesChangedNotified np))
    /\ notationChangedNotified np' = S (notationChangedNotified np)
    /\ score np' = score np /\ heap np' = heap np
    /\ m_totalPlayTime np' = m_totalPlayTime np
    /\ playbackModelReloads np' = playbackModelReloads np
    /\ totalPlayTimeChangedSent np' = totalPlayTimeChangedSent np.
Proof.
  intros Hs newBoundaries.
  unfold notationChanged_notify, updateLoopBoundaries. cbn. rewrite Hs. cbn.
  fold newBoundaries. eexists. split; [reflexivity |].
  destruct (decide (m_loopBoundaries np = newBoundaries)) as [Heq | Hne].
  - rewrite decide_False by auto. cbn. rewrite Heq. cbn. tauto.
  - rewrite decide_True by auto. cbn. tauto.
Qed.

Lemma notationChanged_rederives_loopBoundaries_witness :
  exists np',
    notationChanged_notify
      (examplePlayback (Some (exampleScore 480 1440)) defaultBoundaries)
    = Some np'
    /\ m_loopBoundaries np'
       = {| loopInTick := 480; loopOutTick := 1440; enabled := false |}
    /\ loopBoundariesChangedNotified np' = 1%nat.
Proof.
  destruct (notationChanged_rederives_loopBoundaries
              (examplePlayback (Some (exampleScore 480 1440)) defaultBoundaries)
              (exampleScore 480 1440) eq_refl)
    as (np' & Hrun & Hb & _ & Hn & _).
  exists np'. split; [exact Hrun |]. split; [exact Hb | exact Hn].
Defined.

(** ** Play position *)

(** C7. [playPositionTickByRawTick] fails with [Undefined] when no score is
    loaded and otherwise returns the u-tick the repeat list (under the
    current repeat flag) gives for the tick; [playPositionTickByElement]
    fails with [Undefined] exactly when the element is null or no score is
    loaded, and otherwise is [playPositionTickByRawTick] at the element's
    own tick. *)
Theorem playPositionTick_spec (np : NotationPlayback) (tick : Z)
    (element : option ptr) :
  playPositionTickByRawTick np tick
  = match score np with
    | None => make_ret Undefined
    | Some s =>
        make_ok (RepeatList.tick2utick
                   (Score.repeatList s (isPlayRepeatsEnabled np)) tick)
    end
  /\ playPositionTickByElement np element
     = match element, score np with
       | Some e, Some _ =>
           playPositionTickByRawTick np
             (Fraction.ticks (EngravingObject.tick (heap np e)))
       | _, _ => make_ret Undefined
       end
  /\ (playPositionTickByElement np element = make_ret Undefined
      <-> element = None \/ score np = None).
Proof.
  unfold playPositionTickByElement, playPositionTickByRawTick.
  split; [reflexivity |]. split.
  - destruct element, (score np); reflexivity.
  - destruct element as [e |], (score np) as [s |]; split;
      intros Hx; try discriminate; try reflexivity; auto;
      destruct Hx; discriminate.
Qed.

(** An element at tick 960 of a score whose repeats are expanded. *)
Example playPositionTickByElement_example :
  playPositionTickByElement
    (examplePlayback (Some (exampleScore 0 2000)) defaultBoundaries) (Some 1%nat)
  = make_ok 2960.
Proof. reflexivity. Qed.

(** ** Queries without a score *)

(** C10. With no score loaded, [playedTickToSec] is 0.0 for every tick,
    [secToPlayedTick] and [secToTick] are 0 for every seconds value,
    [beatToRawTick] is 0 for every measure/beat pair and [tempoMultiplier]
    is 1.0. *)
Theorem no_score_defaults (np : NotationPlayback) :
  score np = None ->
  (forall tick, playedTickToSec np tick = 0%float)
  /\ (forall sec, secToPlayedTick np sec = 0)
  /\ (forall sec, secToTick np sec = 0)
  /\ (forall measureIndex beatIndex,
        beatToRawTick np measureIndex beatIndex = 0)
  /\ tempoMultiplier np = 1%float.
Proof.
  intros Hs.
  unfold playedTickToSec, secToPlayedTick, secToTick, beatToRawTick,
    tempoMultiplier.
  rewrite Hs. repeat split.
Qed.

Lemma no_score_defaults_witness :
  score (examplePlayback None defaultBoundaries) = None
  /\ playedTickToSec (examplePlayback None defaultBoundaries) 960 = 0%float
  /\ secToTick (examplePlayback None defaultBoundaries) 2%float = 0
  /\ tempoMultiplier (examplePlayback None defaultBoundaries) = 1%float.
Proof.
  destruct (no_score_defaults (examplePlayback None defaultBoundaries) eq_refl)
    as (H1 & _ & H3 & _ & H5).
  split; [reflexivity |]. split; [apply H1 |]. split; [apply H3 | apply H5].
Defined.

(** With a score the same queries go to the score. *)
Example with_score_queries :
  playedTickToSec loadedPlayback 4000 = 8%float
  /\ secToTick loadedPlayback 1%float = -1040
  /\ beatToRawTick loadedPlayback 2 1 = 4320
  /\ tempoMultiplier loadedPlayback = 2%float.
Proof. repeat split. Qed.

(** ** Total play time *)

(** C3. When the total play time is recomputed for a loaded score, with
    [new] the seconds of the last u-tick (under the current repeat flag)
    plus 3.0: the cached value afterwards compares equal to [new] (when
    [new] is not a number, the cache holds that very value), and the
    total-play-time-changed channel receives [new], once, exactly when the
    previously cached value does not compare equal to [new]; nothing else
    changes. *)
Theorem updateTotalPlayTime_spec (np : NotationPlayback) (s : Score.t) :
  score np = Some s ->
  let lastTick :=
    RepeatList.ticks (Score.repeatList s (isPlayRepeatsEnabled np)) in
  let new := secs_t.add (Score.utick2utime s lastTick) 3%float in
  let np' := updateTotalPlayTime np in
  (secs_t.eqb (totalPlayTime np') new = true
   \/ (PrimFloat.is_nan new = true /\ totalPlayTime np' = new))
  /\ totalPlayTimeChangedSent np'
     = totalPlayTimeChangedSent np
       ++ (if secs_t.eqb (m_totalPlayTime np) new then [] else [new])
  /\ np' = (if secs_t.eqb (m_totalPlayTime np) new then np
            else setTotalPlayTimeAndSend new np).
Proof.
  intros Hs lastTick new np'. subst np'.
  unfold updateTotalPlayTime, totalPlayTime. rewrite Hs.
  fold lastTick. change PLAYBACK_TAIL_SECS with 3%float. fold new.
  destruct (secs_t.eqb (m_totalPlayTime np) new) eqn:Hcmp.
  - split; [left; exact Hcmp |]. split; [| reflexivity].
    symmetry. apply app_nil_r.
  - split; [| split; reflexivity].
    change (m_totalPlayTime (setTotalPlayTimeAndSend new np)) with new.
    destruct (secs_t.eqb new new) eqn:Hrefl; [left; reflexivity |].
    right. split; [| reflexivity].
    unfold PrimFloat.is_nan. apply Bool.negb_true_iff. exact Hrefl.
Qed.

(** A score whose expanded repeat list ends at u-tick 4000, 8 seconds in:
    the play time becomes 11 seconds and is sent once; recomputing again
    sends nothing. *)
Lemma updateTotalPlayTime_spec_witness :
  score loadedPlayback = Some (exampleScore 0 2000)
  /\ totalPlayTime (updateTotalPlayTime loadedPlayback) = 11%float
  /\ totalPlayTimeChangedSent (updateTotalPlayTime loadedPlayback)
     = [11%float]
  /\ totalPlayTimeChangedSent
       (updateTotalPlayTime (updateTotalPlayTime loadedPlayback))
     = [11%float].
Proof.
  destruct (updateTotalPlayTime_spec loadedPlayback (exampleScore 0 2000)
              eq_refl) as (_ & Hsent & Hnp).
  split; [reflexivity |].
  split; [rewrite Hnp; reflexivity |]. split; [exact Hsent |].
  reflexivity.
Defined.

(** ** Sound flags: adding *)

Lemma soundFlag_add (o : ptr) (f : SoundFlag) (h : Heap) (q : ptr) :
  EngravingObject.soundFlag (add o f h q)
  = if decide (q = o) then Some f else EngravingObject.soundFlag (h q).
Proof. unfold add, heapUpdate. case_decide; reflexivity. Qed.

Lemma isStaffText_add (o : ptr) (f : SoundFlag) (h : Heap) (q : ptr) :
  EngravingObject.isStaffText (add o f h q) = EngravingObject.isStaffText (h q).
Proof. unfold add, heapUpdate. case_decide; reflexivity. Qed.

Lemma links_add (o : ptr) (f : SoundFlag) (h : Heap) (q : ptr) :
  EngravingObject.links (add o f h q) = EngravingObject.links (h q).
Proof. unfold add, heapUpdate. case_decide; reflexivity. Qed.

(** The loop over the links changes flags only: it stores the clone in
    every staff text of the list other than the original. *)
Lemma addLinkedClone_fold (p : ptr) (f : SoundFlag) (l : list (option ptr)) :
  forall (h : Heap) (q : ptr),
    EngravingObject.isStaffText (fold_left (addLinkedClone p f) l h q)
    = EngravingObject.isStaffText (h q)
    /\ EngravingObject.links (fold_left (addLinkedClone p f) l h q)
       = EngravingObject.links (h q)
    /\ EngravingObject.soundFlag (fold_left (addLinkedClone p f) l h q)
       = if EngravingObject.isStaffText (h q) && negb (bool_decide (q = p))
            && bool_decide (Some q ∈ l)
         then Some (linkedClone f)
         else EngravingObject.soundFlag (h q).
Proof.
  induction l as [| a l IH]; intros h q; cbn [fold_left].
  - rewrite (bool_decide_eq_false_2 (Some q ∈ [])) by apply not_elem_of_nil.
    rewrite andb_false_r. auto.
  - destruct (IH (addLinkedClone p f h a) q) as (Hst & Hl & Hf).
    rewrite Hst, Hl, Hf. clear IH Hst Hl Hf.
    assert (Hframe :
      EngravingObject.isStaffText (addLinkedClone p f h a q)
      = EngravingObject.isStaffText (h q)
      /\ EngravingObject.links (addLinkedClone p f h a q)
         = EngravingObject.links (h q)).
    { unfold addLinkedClone. destruct a as [o |]; [| auto].
      destruct (_ && _); [| auto].
      rewrite isStaffText_add, links_add. auto. }
    destruct Hframe as [-> ->]. split; [reflexivity |]. split; [reflexivity |].
    destruct (EngravingObject.isStaffText (h q)) eqn:Hq; cbn.
    + destruct (bool_decide_reflect (q = p)) as [-> | Hqp]; cbn.
      * unfold addLinkedClone. destruct a as [o |]; [| reflexivity].
        destruct (bool_decide_reflect (o = p)) as [-> | Hop];
          rewrite ?andb_false_r; cbn; [reflexivity |].
        destruct (EngravingObject.isStaffText (h o)); cbn; [| reflexivity].
        rewrite soundFlag_add. rewrite decide_False by congruence. reflexivity.
      * destruct (bool_decide_reflect (Some q ∈ l)) as [Hin | Hnin].
        { rewrite (bool_decide_eq_true_2 (Some q ∈ a :: l))
            by (right; exact Hin).
          reflexivity. }
        destruct (decide (a = Some q)) as [-> | Ha].
        { rewrite (bool_decide_eq_true_2 (Some q ∈ Some q :: l)) by left.
          unfold addLinkedClone. rewrite Hq.
          rewrite (bool_decide_eq_false_2 (q = p)) by exact Hqp. cbn.
          rewrite soundFlag_add, decide_True by reflexivity. reflexivity. }
        rewrite (bool_decide_eq_false_2 (Some q ∈ a :: l))
          by (intros Hx; apply elem_of_cons in Hx as [Hx | Hx]; congruence).
        unfold addLinkedClone. destruct a as [o |]; [| reflexivity].
        destruct (_ && _); [| reflexivity].
        rewrite soundFlag_add, decide_False by congruence. reflexivity.
    + unfold addLinkedClone. destruct a as [o |]; [| reflexivity].
      destruct (EngravingObject.isStaffText (h o)) eqn:Ho; cbn;
        [| reflexivity].
      destruct (bool_decide (o = p)); cbn; [reflexivity |].
      rewrite soundFlag_add, decide_False by congruence. reflexivity.
Qed.

(** What one [doAddSoundFlag] does to a staff text without a flag: the
    result is [true], the staff text gets the new flag, every other staff
    text of its links gets a clone of it, and nothing else changes. *)
Lemma doAddSoundFlag_spec (p : ptr) (h : Heap) :
  hasSoundFlag h p = false ->
  let links := default [] (EngravingObject.links (h p)) in
  (doAddSoundFlag (Some p) h).2 = true
  /\ forall q,
       EngravingObject.isStaffText ((doAddSoundFlag (Some p) h).1 q)
       = EngravingObject.isStaffText (h q)
       /\ EngravingObject.links ((doAddSoundFlag (Some p) h).1 q)
          = EngravingObject.links (h q)
       /\ EngravingObject.soundFlag ((doAddSoundFlag (Some p) h).1 q)
          = if decide (q = p) then Some (createSoundFlag p)
            else if EngravingObject.isStaffText (h q)
                    && bool_decide (Some q ∈ links)
            then Some (linkedClone (createSoundFlag p))
            else EngravingObject.soundFlag (h q).
Proof.
  intros Hno links. unfold doAddSoundFlag. rewrite Hno.
  rewrite links_add. subst links.
  destruct (EngravingObject.links (h p)) as [l |]; cbn [fst snd default].
  - split; [reflexivity |]. intros q.
    destruct (addLinkedClone_fold p (createSoundFlag p) l
                (add p (createSoundFlag p) h) q) as (Hst & Hl & Hf).
    rewrite Hst, Hl, Hf, isStaffText_add, links_add, soundFlag_add.
    split; [reflexivity |]. split; [reflexivity |].
    destruct (decide (q = p)) as [-> | Hqp].
    + rewrite (bool_decide_eq_true_2 (p = p)) by reflexivity. cbn.
      rewrite andb_false_r. reflexivity.
    + rewrite (bool_decide_eq_false_2 (q = p)) by exact Hqp. cbn.
      rewrite andb_true_r. reflexivity.
  - split; [reflexivity |]. intros q.
    rewrite isStaffText_add, links_add, soundFlag_add.
    rewrite (bool_decide_eq_false_2 (Some q ∈ [])) by apply not_elem_of_nil.
    rewrite andb_false_r. auto.
Qed.

Lemma extendsFlags_refl (h : Heap) : extendsFlags h h.
Proof. intros q. auto. Qed.

Lemma extendsFlags_trans (h0 h1 h2 : Heap) :
  extendsFlags h0 h1 -> extendsFlags h1 h2 -> extendsFlags h0 h2.
Proof.
  intros H01 H12 q. destruct (H01 q) as (? & ? & ?), (H12 q) as (? & ? & ?).
  repeat split; [congruence | congruence | auto].
Qed.

Lemma doAddSoundFlag_noop (st : option ptr) (h : Heap) :
  lacksSoundFlag h st = false -> doAddSoundFlag st h = (h, false).
Proof.
  destruct st as [p |]; cbn; [| reflexivity].
  intros Hp. apply negb_false_iff in Hp. rewrite Hp. reflexivity.
Qed.

(** One step of the loop: the result tells whether the staff text lacked a
    flag, the staff text has a flag afterwards, flags are only added. *)
Lemma doAddSoundFlag_step (st : option ptr) (h : Heap) :
  (doAddSoundFlag st h).2 = lacksSoundFlag h st
  /\ extendsFlags h (doAddSoundFlag st h).1
  /\ (forall p, st = Some p -> hasSoundFlag (doAddSoundFlag st h).1 p = true).
Proof.
  destruct (lacksSoundFlag h st) eqn:Hlack.
  - destruct st as [p |]; [| discriminate]. cbn in Hlack.
    apply negb_true_iff in Hlack.
    destruct (doAddSoundFlag_spec p h Hlack) as [Hb Hq].
    split; [exact Hb |]. split.
    + intros q. destruct (Hq q) as (Hst & Hl & Hf).
      split; [exact Hst |]. split; [exact Hl |].
      unfold hasSoundFlag, EngravingObject.hasSoundFlag. rewrite Hf.
      case_decide; [reflexivity |]. destruct (_ && _); auto.
    + intros p' [= <-]. destruct (Hq p) as (_ & _ & Hf).
      unfold hasSoundFlag, EngravingObject.hasSoundFlag. rewrite Hf.
      rewrite decide_True by reflexivity. reflexivity.
  - rewrite (doAddSoundFlag_noop st h Hlack). cbn.
    split; [reflexivity |]. split; [apply extendsFlags_refl |].
    intros p ->. cbn in Hlack. apply negb_false_iff in Hlack. exact Hlack.
Qed.

Lemma addSoundFlagsLoop_cons (st : option ptr) (l : list (option ptr))
    (h : Heap) (added : bool) :
  addSoundFlagsLoop (st :: l) h added
  = addSoundFlagsLoop l (doAddSoundFlag st h).1
      (added || (doAddSoundFlag st h).2).
Proof.
  unfold addSoundFlagsLoop. cbn [fold_left].
  destruct (doAddSoundFlag st h) as [h' b]. reflexivity.
Qed.

(** The loop of [addSoundFlags]: [added] becomes true exactly when a listed
    staff text lacked a flag, every listed staff text ends with a flag, and
    flags are only added. *)
Lemma addSoundFlagsLoop_spec (l : list (option ptr)) :
  forall (h : Heap) (added : bool),
    (addSoundFlagsLoop l h added).2 = added || existsb (lacksSoundFlag h) l
    /\ extendsFlags h (addSoundFlagsLoop l h added).1
    /\ (forall p, Some p ∈ l ->
          hasSoundFlag (addSoundFlagsLoop l h added).1 p = true).
Proof.
  induction l as [| st l IH]; intros h added.
  - cbn. rewrite orb_false_r. split; [reflexivity |].
    split; [apply extendsFlags_refl |]. intros p Hp.
    apply not_elem_of_nil in Hp as [].
  - rewrite addSoundFlagsLoop_cons.
    destruct (doAddSoundFlag_step st h) as (Hb & Hext & Hself).
    destruct (IH (doAddSoundFlag st h).1 (added || (doAddSoundFlag st h).2))
      as (Hadded & Hext' & Hall).
    split; [| split].
    + rewrite Hadded, Hb. cbn [existsb].
      destruct (lacksSoundFlag h st) eqn:Hlack.
      * destruct added; reflexivity.
      * rewrite (doAddSoundFlag_noop st h Hlack). cbn.
        rewrite orb_false_r. reflexivity.
    + eapply extendsFlags_trans; eassumption.
    + intros p Hp. apply elem_of_cons in Hp as [Heq | Hp].
      * apply (Hext' p), Hself. symmetry. exact Heq.
      * apply Hall, Hp.
Qed.

Lemma doAddSoundFlag_flagsClosed (st : option ptr) (h0 h : Heap) :
  linksShared h0 -> extendsFlags h0 h -> flagsClosed h0 h ->
  flagsClosed h0 (doAddSoundFlag st h).1.
Proof.
  intros Hshared Hext Hclosed.
  destruct (lacksSoundFlag h st) eqn:Hlack;
    [| rewrite (doAddSoundFlag_noop st h Hlack); exact Hclosed].
  destruct st as [p |]; [| discriminate]. cbn in Hlack.
  apply negb_true_iff in Hlack.
  destruct (doAddSoundFlag_spec p h Hlack) as [_ Hspec].
  assert (Hflag : forall l q,
            EngravingObject.links (h0 p) = Some l -> Some q ∈ l ->
            EngravingObject.isStaffText (h0 q) = true ->
            hasSoundFlag (doAddSoundFlag (Some p) h).1 q = true).
  { intros l q Hl Hin Hst. destruct (Hspec q) as (_ & _ & Hf).
    unfold hasSoundFlag, EngravingObject.hasSoundFlag. rewrite Hf.
    case_decide; [reflexivity |].
    destruct (Hext q) as (-> & _ & _). destruct (Hext p) as (_ & -> & _).
    rewrite Hst, Hl. cbn. rewrite bool_decide_eq_true_2 by exact Hin.
    reflexivity. }
  intros x lx q Hx0 Hx1 Hlx Hin Hst.
  destruct (Hspec x) as (_ & _ & Hf).
  unfold hasSoundFlag at 1 in Hx1. unfold EngravingObject.hasSoundFlag in Hx1.
  rewrite Hf in Hx1. clear Hf.
  destruct (decide (x = p)) as [-> | Hxp]; [eauto |].
  destruct (EngravingObject.isStaffText (h x)
            && bool_decide (Some x ∈ default [] (EngravingObject.links (h p))))
    eqn:Hcond.
  - apply andb_true_iff in Hcond as [Hxst Hxin].
    apply bool_decide_eq_true_1 in Hxin.
    destruct (Hext x) as (Hxst0 & _ & _). destruct (Hext p) as (_ & Hpl & _).
    rewrite Hpl in Hxin.
    destruct (EngravingObject.links (h0 p)) as [lp |] eqn:Hlp;
      [| apply not_elem_of_nil in Hxin as []].
    cbn in Hxin.
    assert (Hsame : EngravingObject.links (h0 x) = Some lp)
      by (eapply Hshared; [exact Hlp | exact Hxin | congruence]).
    assert (lx = lp) as -> by congruence.
    eapply Hflag; [reflexivity | exact Hin | exact Hst].
  - destruct (doAddSoundFlag_step (Some p) h) as (_ & Hext1 & _).
    apply (Hext1 q). eapply Hclosed; eauto.
Qed.

Lemma addSoundFlagsLoop_flagsClosed (l : list (option ptr)) (h0 : Heap) :
  linksShared h0 ->
  forall (h : Heap) (added : bool),
    extendsFlags h0 h -> flagsClosed h0 h ->
    flagsClosed h0 (addSoundFlagsLoop l h added).1.
Proof.
  intros Hshared. induction l as [| st l IH]; intros h added Hext Hclosed.
  - exact Hclosed.
  - rewrite addSoundFlagsLoop_cons. apply IH.
    + eapply extendsFlags_trans; [exact Hext |].
      apply (doAddSoundFlag_step st h).
    + apply doAddSoundFlag_flagsClosed; assumption.
Qed.

Lemma addSoundFlagsLoop_noop (l : list (option ptr)) (h : Heap) (added : bool) :
  existsb (lacksSoundFlag h) l = false ->
  addSoundFlagsLoop l h added = (h, added).
Proof.
  revert added. induction l as [| st l IH]; intros added Hl; [reflexivity |].
  cbn [existsb] in Hl. apply orb_false_iff in Hl as [Hst Hl].
  rewrite addSoundFlagsLoop_cons, (doAddSoundFlag_noop st h Hst). cbn.
  rewrite orb_false_r. apply IH, Hl.
Qed.

Lemma setHeap_same (np : NotationPlayback) : setHeap (heap np) np = np.
Proof. destruct np; reflexivity. Qed.

(** What [m_notationChanged.notify()] leaves alone. *)
Lemma notationChanged_notify_frame (np : NotationPlayback) (s : Score.t) :
  score np = Some s ->
  exists np',
    notationChanged_notify np = Some np'
    /\ heap np' = heap np
    /\ score np' = score np
    /\ notationChangedNotified np' = S (notationChangedNotified np)
    /\ playbackModelReloads np' = playbackModelReloads np.
Proof.
  intros Hs. unfold notationChanged_notify, updateLoopBoundaries. cbn.
  rewrite Hs. cbn. eexists. split; [reflexivity |].
  case_decide; cbn; auto.
Qed.

(** Every flag the loop of [addSoundFlags] leaves is the flag the object
    had, the flag created for a listed staff text, or a linked clone of such
    a flag on another staff text of its links. *)
Lemma addSoundFlagsLoop_attached (h0 : Heap) (L l : list (option ptr)) :
  forall (h : Heap) (added : bool),
    (forall st, st ∈ l -> st ∈ L) ->
    extendsFlags h0 h ->
    (forall q, flagAttached h0 L h q) ->
    forall q, flagAttached h0 L (addSoundFlagsLoop l h added).1 q.
Proof.
  induction l as [| st l IH]; intros h added Hsub Hext Hatt; [exact Hatt |].
  rewrite addSoundFlagsLoop_cons.
  apply IH.
  - intros st' Hst'. apply Hsub. right. exact Hst'.
  - eapply extendsFlags_trans; [exact Hext |].
    apply (doAddSoundFlag_step st h).
  - destruct (lacksSoundFlag h st) eqn:Hlack;
      [| rewrite (doAddSoundFlag_noop st h Hlack); exact Hatt].
    destruct st as [p |]; [| discriminate]. cbn in Hlack.
    apply negb_true_iff in Hlack.
    assert (Hp0 : hasSoundFlag h0 p = false).
    { destruct (hasSoundFlag h0 p) eqn:Hp0; [| reflexivity].
      apply (Hext p) in Hp0. congruence. }
    assert (HpL : Some p ∈ L) by (apply Hsub; left).
    destruct (doAddSoundFlag_spec p h Hlack) as [_ Hspec].
    intros q. destruct (Hspec q) as (_ & _ & Hf).
    destruct (decide (q = p)) as [-> | Hqp].
    { right; left. auto. }
    destruct (Hext q) as (Hqst & _ & _). destruct (Hext p) as (_ & Hpl & _).
    rewrite Hqst, Hpl in Hf.
    assert (Hkeep :
      EngravingObject.soundFlag ((doAddSoundFlag (Some p) h).1 q)
      = EngravingObject.soundFlag (h q) ->
      flagAttached h0 L (doAddSoundFlag (Some p) h).1 q).
    { intros Hsame. unfold flagAttached. rewrite Hsame. apply Hatt. }
    destruct (EngravingObject.isStaffText (h0 q)) eqn:Hst0; cbn in Hf;
      [| exact (Hkeep Hf)].
    destruct (bool_decide_reflect
                (Some q ∈ default [] (EngravingObject.links (h0 p))))
      as [Hin | _]; [| exact (Hkeep Hf)].
    destruct (EngravingObject.links (h0 p)) as [lk |] eqn:Hlk;
      [| apply not_elem_of_nil in Hin as []].
    right; right. exists p, lk. auto 10.
Qed.

(** C8. For a non-empty list of staff texts of a loaded score,
    [addSoundFlags] returns, and afterwards every listed staff text has a
    sound flag; when linked objects share their links, every staff text in
    the links of a listed one that lacked a flag has a flag too; flags are
    only added; the score-changed notification fires once when some listed
    staff text lacked a flag, and when all of them had one it does not fire
    and the state is unchanged.  Every flag found afterwards is the flag
    the object had before, or the flag created for a listed staff text that
    lacked one, on that staff text, or a linked clone of such a flag on
    another staff text of its links: the original never holds a clone of
    its own flag and a linked copy never the original's flag itself. *)
Theorem addSoundFlags_spec (staffTextList : list (option ptr))
    (np : NotationPlayback) (s : Score.t) :
  staffTextList <> [] ->
  score np = Some s ->
  exists np',
    addSoundFlags staffTextList np = Some np'
    /\ (forall p, Some p ∈ staffTextList -> hasSoundFlag (heap np') p = true)
    /\ (linksShared (heap np) ->
        forall p l q,
          Some p ∈ staffTextList -> hasSoundFlag (heap np) p = false ->
          EngravingObject.links (heap np p) = Some l -> Some q ∈ l ->
          EngravingObject.isStaffText (heap np q) = true ->
          hasSoundFlag (heap np') q = true)
    /\ extendsFlags (heap np) (heap np')
    /\ notationChangedNotified np'
       = (if existsb (lacksSoundFlag (heap np)) staffTextList
          then S (notationChangedNotified np)
          else notationChangedNotified np)
    /\ (existsb (lacksSoundFlag (heap np)) staffTextList = false -> np' = np)
    /\ (forall q, flagAttached (heap np) staffTextList (heap np') q).
Proof.
  intros Hne Hs. unfold addSoundFlags.
  destruct staffTextList as [| st l]; [contradiction |].
  set (stl := st :: l) in *.
  destruct (addSoundFlagsLoop_spec stl (heap np) false) as (Hadded & Hext & Hall).
  cbn [orb] in Hadded.
  destruct (existsb (lacksSoundFlag (heap np)) stl) eqn:Hlack.
  - destruct (addSoundFlagsLoop stl (heap np) false) as [h added] eqn:Hloop.
    cbn [fst snd] in *. subst added. cbn.
    rewrite Hs. cbn.
    destruct (notationChanged_notify_frame (setHeap h np) s Hs)
      as (np' & Hrun & Hheap & _ & Hn & _).
    exists np'. rewrite Hheap. cbn [setHeap heap].
    split; [exact Hrun |]. split; [exact Hall |]. split; [| split].
    + intros Hshared p lp q Hp Hp0 Hlp Hq Hqst.
      pose proof (addSoundFlagsLoop_flagsClosed stl (heap np) Hshared
                    (heap np) false (extendsFlags_refl _)) as Hclosed.
      rewrite Hloop in Hclosed. cbn [fst] in Hclosed.
      eapply Hclosed; eauto.
      intros x lx y Hx0 Hx1. congruence.
    + exact Hext.
    + split; [exact Hn |]. split; [discriminate |].
      pose proof (addSoundFlagsLoop_attached (heap np) stl stl (heap np) false
                    (fun st H => H) (extendsFlags_refl _)
                    (fun q => or_introl eq_refl)) as Hatt.
      rewrite Hloop in Hatt. exact Hatt.
  - rewrite (addSoundFlagsLoop_noop stl (heap np) false Hlack) in *.
    cbn [fst snd] in *. rewrite setHeap_same.
    exists np. split; [reflexivity |]. split; [exact Hall |].
    split; [| split; [apply extendsFlags_refl |];
              split; [reflexivity |]; split; [reflexivity |];
              intros q; left; reflexivity].
    intros _ p lp q Hp Hp0. exfalso.
    assert (Hex : existsb (lacksSoundFlag (heap np)) stl = true).
    { apply existsb_exists. exists (Some p). split.
      - apply list_elem_of_In, Hp.
      - cbn. rewrite Hp0. reflexivity. }
    congruence.
Qed.

Lemma exampleHeap_linksShared : linksShared exampleHeap.
Proof.
  intros p l q Hl Hin Hst.
  destruct p as [| [| [| [| p]]]]; cbn in Hl; try discriminate;
    injection Hl as <-;
    repeat (apply elem_of_cons in Hin as [Hin | Hin]);
    try discriminate; try (injection Hin as ->; reflexivity);
    apply not_elem_of_nil in Hin as [].
Qed.

(** Staff text 1 (linked with 2) lacks a flag, staff text 3 has one:
    afterwards 1 and 2 have flags and one notification was fired. *)
Lemma addSoundFlags_spec_witness :
  exists np',
    addSoundFlags [Some 1%nat; None; Some 3%nat]
      (examplePlayback (Some (exampleScore 0 2000)) defaultBoundaries)
    = Some np'
    /\ hasSoundFlag (heap np') 1%nat = true
    /\ hasSoundFlag (heap np') 2%nat = true
    /\ notationChangedNotified np' = 1%nat
    /\ EngravingObject.soundFlag (heap np' 1%nat)
       = Some (createSoundFlag 1%nat)
    /\ EngravingObject.soundFlag (heap np' 2%nat)
       = Some (linkedClone (createSoundFlag 1%nat)).
Proof.
  destruct (addSoundFlags_spec [Some 1%nat; None; Some 3%nat]
              (examplePlayback (Some (exampleScore 0 2000)) defaultBoundaries)
              (exampleScore 0 2000) ltac:(discriminate) eq_refl)
    as (np' & Hrun & Hall & Hlinks & _ & Hn & _ & Hatt).
  assert (H1 : hasSoundFlag (heap np') 1%nat = true) by (apply Hall; left).
  assert (H2 : hasSoundFlag (heap np') 2%nat = true).
  { apply (Hlinks exampleHeap_linksShared 1%nat
             [Some 1%nat; None; Some 2%nat] 2%nat);
      [left | reflexivity | reflexivity | right; right; left | reflexivity]. }
  exists np'. split; [exact Hrun |]. split; [exact H1 |].
  split; [exact H2 |]. split; [exact Hn |]. split.
  - destruct (Hatt 1%nat)
      as [Hsame | [(_ & _ & Hf) | (p & lk & Hne & Hp & Hp0 & _)]].
    + unfold hasSoundFlag, EngravingObject.hasSoundFlag in H1.
      rewrite Hsame in H1. discriminate.
    + exact Hf.
    + exfalso. cbn [heap examplePlayback] in Hp0.
      repeat (apply elem_of_cons in Hp as [Hp | Hp]);
        try discriminate; try (injection Hp as ->);
        [congruence | discriminate | apply not_elem_of_nil in Hp as []].
  - destruct (Hatt 2%nat)
      as [Hsame | [(Hp & _) | (p & lk & Hne & Hp & Hp0 & _ & _ & _ & Hf)]].
    + unfold hasSoundFlag, EngravingObject.hasSoundFlag in H2.
      rewrite Hsame in H2. discriminate.
    + exfalso.
      repeat (apply elem_of_cons in Hp as [Hp | Hp]); try discriminate.
      apply not_elem_of_nil in Hp as [].
    + cbn [heap examplePlayback] in Hp0.
      repeat (apply elem_of_cons in Hp as [Hp | Hp]);
        try discriminate; try (injection Hp as ->);
        [exact Hf | discriminate | apply not_elem_of_nil in Hp as []].
Defined.

(** The flags the call leaves: the new flag on 1, its clone on 2. *)
Example addSoundFlags_example :
  (fun h => (EngravingObject.soundFlag (h 1%nat),
             EngravingObject.soundFlag (h 2%nat),
             EngravingObject.soundFlag (h 3%nat)))
    (addSoundFlagsLoop [Some 1%nat; None; Some 3%nat] exampleHeap false).1
  = (Some (createSoundFlag 1%nat),
     Some (linkedClone (createSoundFlag 1%nat)),
     Some (createSoundFlag 3%nat)).
Proof. reflexivity. Qed.

(** All listed staff texts flagged already: nothing is notified. *)
Example addSoundFlags_no_notification :
  addSoundFlags [Some 3%nat]
    (examplePlayback (Some (exampleScore 0 2000)) defaultBoundaries)
  = Some (examplePlayback (Some (exampleScore 0 2000)) defaultBoundaries).
Proof. reflexivity. Qed.

(** ** Sound flags: removing *)

Lemma hasSoundFlag_remove (o : ptr) (h : Heap) (q : ptr) :
  hasSoundFlag (remove o h) q
  = if decide (q = o) then false else hasSoundFlag h q.
Proof.
  unfold hasSoundFlag, remove, heapUpdate. case_decide; reflexivity.
Qed.

Lemma removeLinkedFlag_fold_antitone (p : ptr) (l : list (option ptr)) :
  forall (h : Heap) (q : ptr),
    hasSoundFlag (fold_left (removeLinkedFlag p) l h) q = true ->
    hasSoundFlag h q = true.
Proof.
  induction l as [| a l IH]; intros h q Hq; [exact Hq |].
  cbn [fold_left] in Hq. apply IH in Hq. revert Hq.
  unfold removeLinkedFlag. destruct a as [o |]; [| auto].
  destruct (_ && _); [| auto]. destruct (negb _); [auto |].
  rewrite hasSoundFlag_remove. case_decide; [discriminate | auto].
Qed.

(** One round of the outer loop removes the flag of its staff text and adds
    no flag. *)
Lemma removeSoundFlag_spec (h : Heap) (p : ptr) :
  hasSoundFlag (removeSoundFlag h p) p = false
  /\ forall q, hasSoundFlag (removeSoundFlag h p) q = true ->
               hasSoundFlag h q = true.
Proof.
  unfold removeSoundFlag.
  destruct (hasSoundFlag h p) eqn:Hp; cbn [negb]; [| auto].
  assert (Hanti : forall q,
            hasSoundFlag
              match EngravingObject.links (remove p h p) with
              | Some links => fold_left (removeLinkedFlag p) links (remove p h)
              | None => remove p h
              end q = true ->
            hasSoundFlag (remove p h) q = true).
  { intros q. destruct (EngravingObject.links _); [| auto].
    apply removeLinkedFlag_fold_antitone. }
  split.
  - apply not_true_is_false. intros Hx. apply Hanti in Hx.
    rewrite hasSoundFlag_remove, decide_True in Hx by reflexivity.
    discriminate.
  - intros q Hq. apply Hanti in Hq. rewrite hasSoundFlag_remove in Hq.
    case_decide; [discriminate | exact Hq].
Qed.

Lemma removeSoundFlag_fold (l : list ptr) :
  forall h : Heap,
    Forall (fun p => hasSoundFlag (fold_left removeSoundFlag l h) p = false) l
    /\ forall q, hasSoundFlag (fold_left removeSoundFlag l h) q = true ->
                 hasSoundFlag h q = true.
Proof.
  induction l as [| p l IH]; intros h; cbn [fold_left]; [auto |].
  destruct (IH (removeSoundFlag h p)) as [Hall Hanti].
  destruct (removeSoundFlag_spec h p) as [Hself Hanti1].
  split; [| auto]. constructor; [| exact Hall].
  apply not_true_is_false. intros Hx. apply Hanti in Hx. congruence.
Qed.

(** What [collectStaffText] puts in its result. *)
Lemma collectAnnotation_Forall (h : Heap) (ts : gset InstrumentTrackId)
    (withSoundFlags : bool) (l : list (option ptr)) :
  forall result,
    Forall (fun p => hasSoundFlag h p = withSoundFlags) result ->
    Forall (fun p => hasSoundFlag h p = withSoundFlags)
      (fold_left (collectAnnotation h ts withSoundFlags) l result).
Proof.
  induction l as [| a l IH]; intros result Hres; [exact Hres |].
  cbn [fold_left]. apply IH. unfold collectAnnotation.
  destruct a as [a |]; [| exact Hres].
  destruct (negb (EngravingObject.isStaffText (h a))); [exact Hres |].
  destruct withSoundFlags, (hasSoundFlag h a) eqn:Ha; cbn; try exact Hres;
    (case_bool_decide; [| exact Hres]);
    apply Forall_app; split; [exact Hres | | exact Hres |];
    constructor; auto.
Qed.

Lemma collectStaffText_Forall (np : NotationPlayback)
    (ts : gset InstrumentTrackId) (withSoundFlags : bool) :
  Forall (fun p => hasSoundFlag (heap np) p = withSoundFlags)
    (collectStaffText np ts withSoundFlags).
Proof.
  unfold collectStaffText. case_bool_decide; [constructor |].
  destruct (score np) as [s |]; [| constructor].
  destruct (Score.firstMeasure s); [| constructor].
  generalize (@nil ptr) (Forall_nil_2 (fun p => hasSoundFlag (heap np) p
                                               = withSoundFlags)).
  induction (chordRestSegments s) as [| seg segs IH]; intros result Hres;
    [exact Hres |].
  cbn [fold_left]. apply IH, collectAnnotation_Forall, Hres.
Qed.

Lemma collectStaffText_empty_set (np : NotationPlayback) (b : bool) :
  collectStaffText np ∅ b = [].
Proof.
  unfold collectStaffText. rewrite bool_decide_eq_true_2 by reflexivity.
  reflexivity.
Qed.

Lemma collectStaffText_no_score (np : NotationPlayback)
    (ts : gset InstrumentTrackId) (b : bool) :
  score np = None -> collectStaffText np ts b = [].
Proof.
  intros Hs. unfold collectStaffText. rewrite Hs. case_bool_decide; reflexivity.
Qed.

Lemma removeSoundFlags_nothing_collected (ts : gset InstrumentTrackId)
    (np : NotationPlayback) :
  collectStaffText np ts true = [] -> removeSoundFlags ts np = Some np.
Proof. intros Hc. unfold removeSoundFlags. rewrite Hc. reflexivity. Qed.

(** C2 (amended). [removeSoundFlags] always returns.  When
    [collectStaffText(trackIdSet, true)] finds no staff text, as it does for
    an empty track set or without a score, the state is unchanged: no
    reload, no notification.  When it finds some, each of them carried a
    flag and has none afterwards, and the playback data is reloaded once and
    the score-changed notification fires once. *)
Theorem removeSoundFlags_spec (trackIdSet : gset InstrumentTrackId)
    (np : NotationPlayback) :
  exists np',
    removeSoundFlags trackIdSet np = Some np'
    /\ match collectStaffText np trackIdSet true with
       | [] => np' = np
       | _ :: _ =>
           playbackModelReloads np' = S (playbackModelReloads np)
           /\ notationChangedNotified np' = S (notationChangedNotified np)
       end
    /\ Forall (fun p => hasSoundFlag (heap np) p = true
                        /\ hasSoundFlag (heap np') p = false)
         (collectStaffText np trackIdSet true)
    /\ collectStaffText np ∅ true = []
    /\ (score np = None -> collectStaffText np trackIdSet true = []).
Proof.
  pose proof (collectStaffText_Forall np trackIdSet true) as Hflags.
  pose proof (collectStaffText_no_score np trackIdSet true) as Hnone.
  destruct (collectStaffText np trackIdSet true) as [| p l] eqn:Hc.
  - exists np. rewrite (removeSoundFlags_nothing_collected _ _ Hc).
    split; [reflexivity |]. split; [reflexivity |]. split; [constructor |].
    split; [apply collectStaffText_empty_set | exact Hnone].
  - destruct (score np) as [s |] eqn:Hs; [| discriminate (Hnone eq_refl)].
    unfold removeSoundFlags. rewrite Hc. set (stl := p :: l) in *.
    cbn [score setHeap]. rewrite Hs. cbn [mbind option_bind].
    destruct (notationChanged_notify_frame
                (reload (setHeap (fold_left removeSoundFlag stl (heap np)) np))
                s Hs) as (np' & Hrun & Hheap & _ & Hn & Hr).
    exists np'. split; [exact Hrun |].
    split; [split; [exact Hr | exact Hn] |].
    split; [| split; [apply collectStaffText_empty_set | discriminate]].
    rewrite Hheap. cbn [heap reload setHeap].
    destruct (removeSoundFlag_fold stl (heap np)) as [Hgone _].
    apply Forall_and. split; [exact Hflags | exact Hgone].
Qed.

(** C2 as stated fails: for an empty track set, and for a track set whose
    staff texts carry no flag, [removeSoundFlags] returns the state as it
    is, with no reload and no notification. *)
Lemma removeSoundFlags_counterexample :
  ~ (exists np',
       removeSoundFlags ∅ loadedPlayback = Some np'
       /\ playbackModelReloads np' = S (playbackModelReloads loadedPlayback)
       /\ notationChangedNotified np'
          = S (notationChangedNotified loadedPlayback))
  /\ ~ (exists np',
          removeSoundFlags {[ (1%N, "violin"%string) ]} loadedPlayback = Some np'
          /\ playbackModelReloads np' = S (playbackModelReloads loadedPlayback)
          /\ notationChangedNotified np'
             = S (notationChangedNotified loadedPlayback)).
Proof.
  split; intros (np' & Hrun & Hr & _).
  - rewrite removeSoundFlags_nothing_collected in Hrun
      by apply collectStaffText_empty_set.
    injection Hrun as <-. discriminate.
  - rewrite removeSoundFlags_nothing_collected in Hrun by (vm_compute; reflexivity).
    injection Hrun as <-. discriminate.
Qed.

(** A track set with a flagged staff text: the flag goes, one reload, one
    notification. *)
Example removeSoundFlags_example :
  (fun np' => (hasSoundFlag (heap np') 3%nat, playbackModelReloads np',
               notationChangedNotified np'))
  <$> removeSoundFlags {[ (2%N, "flute"%string) ]} loadedPlayback
  = Some (false, 1%nat, 1%nat).
Proof. vm_compute. reflexivity. Qed.

(** * Further properties *)

(** ** Loop boundaries on the score *)

Section LoopBoundaryMore.
Context `{BT : BoundaryTick}.

Ltac unfold_fraction' :=
  unfold Fraction.geb, Fraction.leb, Fraction.gtb, Fraction.add,
    Fraction.zero, Fraction.fromTicks, Fraction.ticks, Fraction.t in *.

Lemma measures_first_last (s : Score.t) :
  Score.measures s <> [] ->
  exists mf ml, Score.firstMeasure s = Some mf /\ Score.lastMeasure s = Some ml.
Proof.
  unfold Score.firstMeasure, Score.lastMeasure. intros Hne.
  destruct (Score.measures s) as [| m ms] eqn:Hm; [contradiction |].
  exists m. destruct (last (m :: ms)) as [ml |] eqn:Hl; [eauto |].
  apply last_None in Hl. discriminate.
Qed.

Lemma setLoop_eta (s : Score.t) :
  s = Score.setLoopOutTick (Score.loopOutTick s)
        (Score.setLoopInTick (Score.loopInTick s) s).
Proof. destruct s; reflexivity. Qed.

(** X1. On a score with at least one measure [addLoopBoundary] returns for
    every boundary type and every tick, sentinels included, and the score it
    leaves differs from the one it found in the two loop markers only. *)
Theorem addLoopBoundary_total_frame (boundaryType : LoopBoundaryType)
    (tick : Z) (s : Score.t) :
  Score.measures s <> [] ->
  exists s' i o,
    addLoopBoundary boundaryType tick s = Some s'
    /\ s' = Score.setLoopOutTick o (Score.setLoopInTick i s).
Proof.
  intros Hne. destruct (measures_first_last s Hne) as (mf & ml & Hf & Hl).
  assert (Hgen : forall t,
            exists s' i o,
              match boundaryType with
              | LoopIn => addLoopIn t s
              | LoopOut => addLoopOut t s
              | Unknown => Some s
              end = Some s'
              /\ s' = Score.setLoopOutTick o (Score.setLoopInTick i s)).
  { intros t. destruct boundaryType.
    - exists s, (Score.loopInTick s), (Score.loopOutTick s).
      split; [reflexivity | apply setLoop_eta].
    - unfold addLoopIn. rewrite Hl.
      set (tk := if t =? SelectedNoteTick then _ else _).
      destruct (Fraction.geb _ _); cbn [mbind option_bind].
      + exists (Score.setLoopInTick tk
                  (Score.setLoopOutTick (Measure.endTick ml) s)),
          tk, (Measure.endTick ml).
        split; reflexivity.
      + exists (Score.setLoopInTick tk s), tk, (Score.loopOutTick s).
        split; [reflexivity | destruct s; reflexivity].
    - unfold addLoopOut. rewrite Hl.
      set (tk := if t =? SelectedNoteTick then _ else _).
      destruct (Fraction.leb _ _); cbn [mbind option_bind].
      + exists (Score.setLoopOutTick tk
                  (Score.setLoopInTick Fraction.zero s)),
          Fraction.zero, tk.
        split; reflexivity.
      + eexists _, (Score.loopInTick s), _.
        split; [reflexivity | destruct s; reflexivity]. }
  unfold addLoopBoundary. rewrite Hf, Hl.
  destruct (tick =? FirstScoreTick); [apply Hgen |].
  destruct (tick =? LastScoreTick); apply Hgen.
Qed.

(** X2. On a score whose first measure starts before its last measure
    ends, setting the loop-in boundary to the first-score-tick sentinel and
    then the loop-out boundary to the last-score-tick sentinel selects the
    whole score, whatever the loop region was before. *)
Theorem addLoopBoundary_full_score (s : Score.t) (mf ml : Measure.t) :
  Score.firstMeasure s = Some mf ->
  Score.lastMeasure s = Some ml ->
  FirstScoreTick <> LastScoreTick ->
  Fraction.ticks (Measure.tick mf) <> SelectedNoteTick ->
  Fraction.ticks (Measure.endTick ml) <> SelectedNoteTick ->
  Fraction.ticks (Measure.tick mf) < Fraction.ticks (Measure.endTick ml) ->
  addLoopBoundary LoopIn FirstScoreTick s
    ≫= addLoopBoundary LoopOut LastScoreTick
  = Some (Score.setLoopOutTick (Measure.endTick ml)
            (Score.setLoopInTick (Measure.tick mf) s)).
Proof.
  intros Hf Hl Hfl Hfs Hls Hlt.
  unfold addLoopBoundary at 2. rewrite Z.eqb_refl, Hf. cbn [mbind option_bind].
  unfold addLoopIn. rewrite Hl.
  destruct (Z.eqb_spec (Fraction.ticks (Measure.tick mf)) SelectedNoteTick)
    as [? | _]; [contradiction |].
  assert (Hstep : forall s1,
            Score.lastMeasure s1 = Some ml ->
            Score.firstMeasure s1 = Some mf ->
            Score.loopInTick s1 = Measure.tick mf ->
            addLoopBoundary LoopOut LastScoreTick s1
            = Some (Score.setLoopOutTick (Measure.endTick ml) s1)).
  { intros s1 Hl1 Hf1 Hin1. unfold addLoopBoundary.
    destruct (Z.eqb_spec LastScoreTick FirstScoreTick) as [? | _];
      [congruence |].
    rewrite Z.eqb_refl, Hl1. cbn [mbind option_bind].
    unfold addLoopOut. rewrite Hl1, Hin1.
    destruct (Z.eqb_spec (Fraction.ticks (Measure.endTick ml))
                SelectedNoteTick) as [? | _]; [contradiction |].
    unfold_fraction'.
    destruct (Z.leb_spec (Measure.endTick ml) (Measure.tick mf)); [lia |].
    cbn [mbind option_bind]. rewrite Z.ltb_irrefl. reflexivity. }
  destruct (Fraction.geb _ _); cbn [mbind option_bind];
    rewrite Hstep by (unfold Score.firstMeasure, Score.lastMeasure in *;
                      first [assumption | reflexivity]);
    reflexivity.
Qed.

(** X3. For every pair of stores that keep the ticks of the score as they
    are: a loop-in tick from 0 up to, but excluding, the end of the last
    measure leaves a non-empty loop region whatever the region was before;
    so does a positive loop-out tick when the loop-in marker is at least 0
    and before the end of the last measure. *)
Theorem runLoopCall_region_nonempty
    (setLoopInTick setLoopOutTick : Fraction.t -> Score.t -> Score.t)
    (c : LoopCall) (s : Score.t) (m : Measure.t) :
  storesScoreTicks setLoopInTick setLoopOutTick ->
  Score.lastMeasure s = Some m ->
  match c with
  | CallAddLoopIn _ =>
      0 <= Fraction.ticks (resolvedTick c s)
      < Fraction.ticks (Measure.endTick m)
  | CallAddLoopOut _ =>
      0 < Fraction.ticks (resolvedTick c s)
      /\ 0 <= Fraction.ticks (Score.loopInTick s)
         < Fraction.ticks (Measure.endTick m)
  end ->
  exists s',
    OverStore.runLoopCall setLoopInTick setLoopOutTick c s = Some s'
    /\ Fraction.ticks (Score.loopInTick s')
       < Fraction.ticks (Score.loopOutTick s').
Proof.
  intros Hst Hlast Hpre. unfold storesScoreTicks in Hst.
  assert (HI : forall x s1,
            Score.lastMeasure s1 = Some m ->
            0 <= x <= Measure.endTick m ->
            setLoopInTick x s1 = Score.setLoopInTick x s1)
    by (intros x s1 H1 Hx; apply (Hst x s1 m H1 Hx)).
  assert (HO : forall x s1,
            Score.lastMeasure s1 = Some m ->
            0 <= x <= Measure.endTick m ->
            setLoopOutTick x s1 = Score.setLoopOutTick x s1)
    by (intros x s1 H1 Hx; apply (Hst x s1 m H1 Hx)).
  clear Hst.
  destruct c as [t | t]; cbn [OverStore.runLoopCall resolvedTick] in *;
    unfold OverStore.addLoopIn, OverStore.addLoopOut; rewrite Hlast;
    unfold_fraction'.
  - destruct (t =? SelectedNoteTick);
      match goal with |- context [?a <=? ?b] =>
        destruct (Z.leb_spec a b) end; cbn [mbind option_bind];
      rewrite ?HO by (first [exact Hlast | lia]);
      rewrite HI by (first [exact Hlast | lia]);
      eexists; (split; [reflexivity |]); cbn; lia.
  - destruct (t =? SelectedNoteTick);
      match goal with |- context [?a <=? ?b] =>
        destruct (Z.leb_spec a b) end; cbn [mbind option_bind];
      try match goal with |- context [?a <? ?b] =>
        destruct (Z.ltb_spec a b) end;
      rewrite ?HI by (first [exact Hlast | lia]);
      rewrite HO by (first [exact Hlast | lia]);
      eexists; (split; [reflexivity |]); cbn; lia.
Qed.

(** X4. When the loop-in marker is not beyond the end of the last measure,
    [addLoopOut] leaves the loop-out marker not beyond it either, for every
    tick, the selection sentinel included. *)
Theorem addLoopOut_within_score (t : Z) (s : Score.t) (m : Measure.t) :
  Score.lastMeasure s = Some m ->
  Fraction.ticks (Score.loopInTick s) <= Fraction.ticks (Measure.endTick m) ->
  exists s',
    addLoopOut t s = Some s'
    /\ Fraction.ticks (Score.loopOutTick s')
       <= Fraction.ticks (Measure.endTick m).
Proof.
  intros Hlast Hin. unfold addLoopOut. rewrite Hlast. unfold_fraction'.
  destruct (t =? SelectedNoteTick);
    match goal with |- context [?a <=? ?b] =>
      destruct (Z.leb_spec a b) end; cbn;
    try match goal with |- context [?a <? ?b] =>
      destruct (Z.ltb_spec a b) end;
    eexists; (split; [reflexivity |]); cbn; lia.
Qed.

Lemma addLoopIn_resolved (t : Z) (s : Score.t) (m : Measure.t) :
  Score.lastMeasure s = Some m ->
  addLoopIn t s
  = Some (Score.setLoopInTick (resolvedTick (CallAddLoopIn t) s)
            (if Score.loopOutTick s <=? resolvedTick (CallAddLoopIn t) s
             then Score.setLoopOutTick (Measure.endTick m) s
             else s)).
Proof.
  intros Hlast. unfold addLoopIn, resolvedTick. rewrite Hlast.
  unfold_fraction'. destruct (t =? SelectedNoteTick);
    match goal with |- context [?a <=? ?b] => destruct (a <=? b) end;
    reflexivity.
Qed.

Lemma addLoopOut_resolved (t : Z) (s : Score.t) (m : Measure.t) :
  Score.lastMeasure s = Some m ->
  addLoopOut t s
  = Some (if resolvedTick (CallAddLoopOut t) s <=? Score.loopInTick s
          then Score.setLoopOutTick (resolvedTick (CallAddLoopOut t) s)
                 (Score.setLoopInTick 0 s)
          else Score.setLoopOutTick
                 (Z.min (resolvedTick (CallAddLoopOut t) s)
                    (Measure.endTick m)) s).
Proof.
  intros Hlast. unfold addLoopOut, resolvedTick. rewrite Hlast.
  unfold_fraction'. destruct (t =? SelectedNoteTick);
    match goal with |- context [?a <=? ?b] => destruct (a <=? b) end;
    cbn [mbind option_bind]; try reflexivity;
    match goal with |- context [?a <? ?b] =>
      destruct (Z.ltb_spec a b) end;
    [rewrite Z.min_r by lia | rewrite Z.min_l by lia
     | rewrite Z.min_r by lia | rewrite Z.min_l by lia]; reflexivity.
Qed.

(** X5. Repeating a call changes nothing: [addLoopIn] with one tick twice
    is [addLoopIn] once, and so is [addLoopOut] when the loop-in marker was
    not beyond the end of the last measure. *)
Theorem runLoopCall_idempotent (c : LoopCall) (s : Score.t) (m : Measure.t) :
  Score.lastMeasure s = Some m ->
  match c with
  | CallAddLoopIn _ => True
  | CallAddLoopOut _ =>
      Fraction.ticks (Score.loopInTick s)
      <= Fraction.ticks (Measure.endTick m)
  end ->
  runLoopCall c s ≫= runLoopCall c = runLoopCall c s.
Proof.
  intros Hlast Hpre. destruct c as [t | t]; cbn [runLoopCall] in *.
  - rewrite (addLoopIn_resolved t s m Hlast).
    cbn [mbind option_bind runLoopCall].
    set (T := resolvedTick (CallAddLoopIn t) s).
    destruct (Z.leb_spec (Score.loopOutTick s) T) as [Hc | Hc].
    + rewrite (addLoopIn_resolved t _ m) by exact Hlast.
      change (resolvedTick (CallAddLoopIn t) _) with T. clearbody T. cbn.
      destruct (Z.leb_spec (Measure.endTick m) T); reflexivity.
    + rewrite (addLoopIn_resolved t _ m) by exact Hlast.
      change (resolvedTick (CallAddLoopIn t) _) with T. clearbody T. cbn.
      destruct (Z.leb_spec (Score.loopOutTick s) T); [lia | reflexivity].
  - rewrite (addLoopOut_resolved t s m Hlast).
    cbn [mbind option_bind runLoopCall].
    set (T := resolvedTick (CallAddLoopOut t) s). unfold_fraction'.
    destruct (Z.leb_spec T (Score.loopInTick s)) as [Hc | Hc].
    + rewrite (addLoopOut_resolved t _ m) by exact Hlast.
      change (resolvedTick (CallAddLoopOut t) _) with T. clearbody T. cbn.
      destruct (Z.leb_spec T 0); [reflexivity |].
      rewrite Z.min_l by lia. reflexivity.
    + rewrite (addLoopOut_resolved t _ m) by exact Hlast.
      change (resolvedTick (CallAddLoopOut t) _) with T. clearbody T. cbn.
      destruct (Z.leb_spec T (Score.loopInTick s)); [lia | reflexivity].
Qed.
End LoopBoundaryMore.

Lemma addLoopBoundary_total_frame_witness :
  exists s' i o,
    @addLoopBoundary exampleBoundaryTick LoopOut (-1) (exampleScore 0 1000)
    = Some s'
    /\ s' = Score.setLoopOutTick o (Score.setLoopInTick i (exampleScore 0 1000)).
Proof.
  apply (@addLoopBoundary_total_frame exampleBoundaryTick LoopOut (-1)
           (exampleScore 0 1000)).
  discriminate.
Defined.

Lemma addLoopBoundary_full_score_witness :
  @addLoopBoundary exampleBoundaryTick LoopIn (-3) (exampleScore 500 800)
    ≫= @addLoopBoundary exampleBoundaryTick LoopOut (-1)
  = Some (exampleScore 0 2000).
Proof.
  apply (@addLoopBoundary_full_score exampleBoundaryTick
           (exampleScore 500 800) exampleMeasure exampleMeasure);
    solve [reflexivity | vm_compute; discriminate].
Defined.

Lemma bare_storesScoreTicks :
  storesScoreTicks Score.setLoopInTick Score.setLoopOutTick.
Proof. intros tick s m _ _. split; reflexivity. Qed.

Lemma bounded_storesScoreTicks :
  storesScoreTicks BoundedScore.setLoopInTick BoundedScore.setLoopOutTick.
Proof.
  intros tick s m Hlast Hrange.
  unfold BoundedScore.setLoopInTick, BoundedScore.setLoopOutTick,
    BoundedScore.boundTick.
  rewrite Hlast. unfold Fraction.ticks in Hrange.
  rewrite Z.min_l, Z.max_r by lia. split; reflexivity.
Qed.

Lemma runLoopCall_region_nonempty_witness :
  exists s',
    @OverStore.runLoopCall exampleBoundaryTick BoundedScore.setLoopInTick
      BoundedScore.setLoopOutTick (CallAddLoopIn 1500) (exampleScore 0 1000)
    = Some s'
    /\ Fraction.ticks (Score.loopInTick s')
       < Fraction.ticks (Score.loopOutTick s').
Proof.
  apply (@runLoopCall_region_nonempty exampleBoundaryTick
           BoundedScore.setLoopInTick BoundedScore.setLoopOutTick
           (CallAddLoopIn 1500) (exampleScore 0 1000) exampleMeasure);
    [exact bounded_storesScoreTicks | reflexivity
     | vm_compute; split; [discriminate | reflexivity]].
Defined.

(** With a store that bounds ticks the non-negative loop-in tick is needed:
    [addLoopIn(-5)] on an empty region at 0 leaves it empty. *)
Example bounded_negative_loopIn :
  @OverStore.addLoopIn exampleBoundaryTick BoundedScore.setLoopInTick
    BoundedScore.setLoopOutTick (-5) (exampleScore 0 0)
  = Some (exampleScore 0 0).
Proof. reflexivity. Qed.

Lemma addLoopOut_within_score_witness :
  exists s',
    @addLoopOut exampleBoundaryTick 5000 (exampleScore 500 1000) = Some s'
    /\ Fraction.ticks (Score.loopOutTick s') <= 2000.
Proof.
  apply (@addLoopOut_within_score exampleBoundaryTick 5000
           (exampleScore 500 1000) exampleMeasure);
    [reflexivity | vm_compute; discriminate].
Defined.

Lemma runLoopCall_idempotent_witness :
  @runLoopCall exampleBoundaryTick (CallAddLoopOut 200) (exampleScore 500 1000)
    ≫= @runLoopCall exampleBoundaryTick (CallAddLoopOut 200)
  = Some (exampleScore 0 200).
Proof.
  exact (@runLoopCall_idempotent exampleBoundaryTick (CallAddLoopOut 200)
           (exampleScore 500 1000) exampleMeasure eq_refl
           ltac:(vm_compute; discriminate)).
Defined.

(** Without the bound on the loop-in marker a second [addLoopOut] can still
    move the loop-out marker: it is clamped only on the second call. *)
Example addLoopOut_not_idempotent :
  @addLoopOut exampleBoundaryTick 3000 (exampleScore 5000 6000)
  = Some (exampleScore 0 3000)
  /\ @addLoopOut exampleBoundaryTick 3000 (exampleScore 0 3000)
     = Some (exampleScore 0 2000).
Proof. split; reflexivity. Qed.

(** ** The cached loop boundaries *)

(** X6. After [updateLoopBoundaries] the cached ticks are the score's loop
    markers, and running it again changes nothing: the second run does not
    notify. *)
Theorem updateLoopBoundaries_idempotent (np : NotationPlayback) (s : Score.t) :
  score np = Some s ->
  exists np1,
    updateLoopBoundaries np = Some np1
    /\ updateLoopBoundaries np1 = Some np1
    /\ loopInTick (m_loopBoundaries np1) = Fraction.ticks (Score.loopInTick s)
    /\ loopOutTick (m_loopBoundaries np1)
       = Fraction.ticks (Score.loopOutTick s).
Proof.
  intros Hs. unfold updateLoopBoundaries. rewrite Hs. cbn [mbind option_bind].
  set (new := {| loopInTick := Fraction.ticks (Score.loopInTick s);
                 loopOutTick := Fraction.ticks (Score.loopOutTick s);
                 enabled := enabled (m_loopBoundaries np) |}).
  eexists. split; [reflexivity |].
  destruct (decide (m_loopBoundaries np = new)) as [Heq | Hne].
  - rewrite decide_False by auto. rewrite Hs. cbn [mbind option_bind].
    fold new. rewrite decide_False by auto.
    rewrite Heq. auto.
  - rewrite decide_True by auto. cbn. rewrite Hs. cbn.
    fold new. rewrite decide_False by auto. auto.
Qed.

Lemma updateLoopBoundaries_idempotent_witness :
  exists np1,
    updateLoopBoundaries
      (examplePlayback (Some (exampleScore 480 1440)) defaultBoundaries)
    = Some np1
    /\ updateLoopBoundaries np1 = Some np1
    /\ loopInTick (m_loopBoundaries np1) = 480
    /\ loopOutTick (m_loopBoundaries np1) = 1440.
Proof.
  exact (updateLoopBoundaries_idempotent
           (examplePlayback (Some (exampleScore 480 1440)) defaultBoundaries)
           (exampleScore 480 1440) eq_refl).
Defined.

(** X7. Enabling or disabling the loop and re-reading the boundaries from
    the score commute: either order gives the same state, with the same
    number of notifications. *)
Theorem setLoopBoundariesEnabled_updateLoopBoundaries_commute (b : bool)
    (np : NotationPlayback) :
  updateLoopBoundaries (setLoopBoundariesEnabled b np)
  = setLoopBoundariesEnabled b <$> updateLoopBoundaries np.
Proof.
  destruct np as [h [s |] r [i o e] t n1 n2 n3 l];
    unfold updateLoopBoundaries, setLoopBoundariesEnabled; cbn;
    [| destruct (Bool.eqb e b); reflexivity].
  destruct (Bool.eqb_spec e b) as [-> | Hne]; cbn.
  - repeat case_decide; cbn; rewrite ?Bool.eqb_reflx; reflexivity.
  - destruct (decide (i = Fraction.ticks (Score.loopInTick s))) as [-> | Hi],
      (decide (o = Fraction.ticks (Score.loopOutTick s))) as [-> | Ho];
      repeat case_decide; cbn;
      try (destruct (Bool.eqb_spec e b); [contradiction |]);
      try reflexivity; exfalso; congruence.
Qed.

(** ** Total play time, repeats and conversions *)

(** X8. When the play time of the score is a number, recomputing the total
    play time a second time changes nothing: nothing more is sent. *)
Theorem updateTotalPlayTime_idempotent (np : NotationPlayback) (s : Score.t) :
  score np = Some s ->
  (let new :=
     secs_t.add
       (Score.utick2utime s
          (RepeatList.ticks (Score.repeatList s (isPlayRepeatsEnabled np))))
       PLAYBACK_TAIL_SECS in
   secs_t.eqb new new = true) ->
  updateTotalPlayTime (updateTotalPlayTime np) = updateTotalPlayTime np.
Proof.
  intros Hs Hnum. cbv zeta in Hnum.
  set (new := secs_t.add _ _) in Hnum.
  assert (Hfix : forall x,
            score x = Some s ->
            isPlayRepeatsEnabled x = isPlayRepeatsEnabled np ->
            secs_t.eqb (m_totalPlayTime x) new = true ->
            updateTotalPlayTime x = x).
  { intros x Hx Hr Hc. unfold updateTotalPlayTime. rewrite Hx, Hr.
    fold new. rewrite Hc. reflexivity. }
  assert (Hstep : updateTotalPlayTime np
                  = if secs_t.eqb (m_totalPlayTime np) new then np
                    else setTotalPlayTimeAndSend new np).
  { unfold updateTotalPlayTime. rewrite Hs. reflexivity. }
  rewrite Hstep.
  destruct (secs_t.eqb (m_totalPlayTime np) new) eqn:Hcmp;
    apply Hfix; auto.
Qed.

Lemma updateTotalPlayTime_idempotent_witness :
  updateTotalPlayTime (updateTotalPlayTime loadedPlayback)
  = updateTotalPlayTime loadedPlayback.
Proof.
  exact (updateTotalPlayTime_idempotent loadedPlayback (exampleScore 0 2000)
           eq_refl eq_refl).
Defined.

(** X9. The handler of the play-repeats setting reloads the playback model
    exactly when the setting differs from the model's flag, and running it
    again with the same setting does nothing.  When the total play time is
    recomputed after it, the cache compares equal to the play time of the
    score under the new setting plus the tail (provided that is a number). *)
Theorem onIsPlayRepeatsChanged_spec (expandRepeats : bool)
    (np : NotationPlayback) (s : Score.t) :
  score np = Some s ->
  (let new :=
     secs_t.add
       (Score.utick2utime s
          (RepeatList.ticks (Score.repeatList s expandRepeats)))
       PLAYBACK_TAIL_SECS in
   secs_t.eqb new new = true) ->
  let np1 := onIsPlayRepeatsChanged expandRepeats np in
  isPlayRepeatsEnabled np1 = expandRepeats
  /\ playbackModelReloads np1
     = (if Bool.eqb expandRepeats (isPlayRepeatsEnabled np)
        then playbackModelReloads np
        else S (playbackModelReloads np))
  /\ onIsPlayRepeatsChanged expandRepeats np1 = np1
  /\ secs_t.eqb
       (totalPlayTime (updateTotalPlayTime np1))
       (secs_t.add
          (Score.utick2utime s
             (RepeatList.ticks (Score.repeatList s expandRepeats)))
          PLAYBACK_TAIL_SECS)
     = true.
Proof.
  intros Hs Hnum np1. cbv zeta in Hnum.
  assert (Hflag : isPlayRepeatsEnabled np1 = expandRepeats).
  { subst np1. unfold onIsPlayRepeatsChanged.
    destruct (Bool.eqb_spec expandRepeats (isPlayRepeatsEnabled np));
      cbn; auto. }
  assert (Hscore : score np1 = Some s).
  { subst np1. unfold onIsPlayRepeatsChanged.
    destruct (Bool.eqb expandRepeats (isPlayRepeatsEnabled np)); cbn; auto. }
  split; [exact Hflag |]. split; [| split].
  - subst np1. unfold onIsPlayRepeatsChanged.
    destruct (Bool.eqb expandRepeats (isPlayRepeatsEnabled np)); reflexivity.
  - unfold onIsPlayRepeatsChanged at 1. rewrite Hflag, Bool.eqb_reflx.
    reflexivity.
  - unfold updateTotalPlayTime, totalPlayTime. rewrite Hscore, Hflag.
    destruct (secs_t.eqb (m_totalPlayTime np1) _) eqn:Hcmp;
      [exact Hcmp | exact Hnum].
Qed.

Lemma onIsPlayRepeatsChanged_spec_witness :
  isPlayRepeatsEnabled (onIsPlayRepeatsChanged false loadedPlayback) = false
  /\ playbackModelReloads (onIsPlayRepeatsChanged false loadedPlayback) = 1%nat
  /\ totalPlayTime
       (updateTotalPlayTime (onIsPlayRepeatsChanged false loadedPlayback))
     = 7%float.
Proof.
  destruct (onIsPlayRepeatsChanged_spec false loadedPlayback
              (exampleScore 0 2000) eq_refl eq_refl) as (Hf & Hr & _ & _).
  split; [exact Hf |]. split; [exact Hr | reflexivity].
Defined.

(** X10. A raw tick, its play position, the seconds of that position and
    the raw tick of those seconds: when the repeat list and the tempo map
    invert their own mappings at the tick, the three queries lead back to
    it, since all of them use the same repeat setting. *)
Theorem rawTick_seconds_roundtrip (np : NotationPlayback) (s : Score.t)
    (tick : Z) :
  score np = Some s ->
  let repeats := Score.repeatList s (isPlayRepeatsEnabled np) in
  RepeatList.utick2tick repeats (RepeatList.tick2utick repeats tick) = tick ->
  Score.utime2utick s
    (Score.utick2utime s (RepeatList.tick2utick repeats tick))
  = RepeatList.tick2utick repeats tick ->
  exists utick,
    playPositionTickByRawTick np tick = make_ok utick
    /\ secToPlayedTick np (playedTickToSec np utick) = utick
    /\ secToTick np (playedTickToSec np utick) = tick.
Proof.
  intros Hs repeats Hrep Htempo.
  exists (RepeatList.tick2utick repeats tick).
  unfold playPositionTickByRawTick, secToTick, secToPlayedTick,
    playedTickToSec.
  rewrite Hs. fold repeats. rewrite Htempo, Hrep. auto.
Qed.

Lemma rawTick_seconds_roundtrip_witness :
  exists utick,
    playPositionTickByRawTick unexpandedPlayback 960 = make_ok utick
    /\ secToPlayedTick unexpandedPlayback
         (playedTickToSec unexpandedPlayback utick) = utick
    /\ secToTick unexpandedPlayback
         (playedTickToSec unexpandedPlayback utick) = 960.
Proof.
  exact (rawTick_seconds_roundtrip unexpandedPlayback (exampleScore 0 2000)
           960 eq_refl eq_refl eq_refl).
Defined.

(** ** Collecting staff texts *)

Lemma collectAnnotation_Some (h : Heap) (ts : gset InstrumentTrackId)
    (b : bool) (result : list ptr) (a : ptr) :
  collectAnnotation h ts b result (Some a)
  = if isCollected h ts b a then result ++ [a] else result.
Proof.
  unfold collectAnnotation, isCollected.
  destruct (EngravingObject.isStaffText (h a)); cbn; [| reflexivity].
  destruct b, (hasSoundFlag h a); cbn; reflexivity.
Qed.

Lemma collectAnnotation_fold (h : Heap) (ts : gset InstrumentTrackId)
    (b : bool) (l : list (option ptr)) :
  forall result,
    fold_left (collectAnnotation h ts b) l result
    = result ++ List.filter (isCollected h ts b) (omap id l).
Proof.
  induction l as [| [a |] l IH]; intros result; cbn [fold_left].
  - cbn. symmetry. apply app_nil_r.
  - rewrite IH, collectAnnotation_Some. cbn.
    destruct (isCollected h ts b a); [| reflexivity].
    rewrite <- app_assoc. reflexivity.
  - rewrite IH. reflexivity.
Qed.

Lemma collectSegments_fold (h : Heap) (ts : gset InstrumentTrackId)
    (b : bool) (segs : list Segment) :
  forall result,
    fold_left
      (fun result seg =>
         fold_left (collectAnnotation h ts b) (annotations seg) result)
      segs result
    = result
      ++ List.filter (isCollected h ts b)
           (omap id (concat (annotations <$> segs))).
Proof.
  induction segs as [| seg segs IH]; intros result; cbn [fold_left].
  - cbn. symmetry. apply app_nil_r.
  - rewrite IH, collectAnnotation_fold. cbn [fmap list_fmap concat].
    rewrite omap_app, List.filter_app, app_assoc. reflexivity.
Qed.

Lemma isCollected_empty (h : Heap) (b : bool) (l : list ptr) :
  List.filter (isCollected h ∅ b) l = [].
Proof.
  induction l as [| a l IH]; [reflexivity |]. cbn. rewrite IH.
  unfold isCollected.
  rewrite (bool_decide_eq_false_2 (_ ∈ ∅)) by apply not_elem_of_empty.
  rewrite andb_false_r. reflexivity.
Qed.

Lemma collectStaffText_as_filter (np : NotationPlayback)
    (ts : gset InstrumentTrackId) (b : bool) :
  collectStaffText np ts b
  = match score np with
    | None => []
    | Some s => List.filter (isCollected (heap np) ts b) (annotationPointers s)
    end.
Proof.
  unfold collectStaffText. case_bool_decide as Hts.
  - subst ts. destruct (score np); [| reflexivity].
    symmetry. apply isCollected_empty.
  - destruct (score np) as [s |]; [| reflexivity].
    unfold annotationPointers, chordRestSegments, Score.firstMeasure.
    destruct (Score.measures s) as [| m ms]; [reflexivity |]. cbn [head].
    apply collectSegments_fold.
Qed.

Lemma collectStaffText_elem (np : NotationPlayback)
    (ts : gset InstrumentTrackId) (b : bool) (p : ptr) :
  p ∈ collectStaffText np ts b
  <-> exists s,
        score np = Some s
        /\ p ∈ annotationPointers s
        /\ EngravingObject.isStaffText (heap np p) = true
        /\ hasSoundFlag (heap np) p = b
        /\ EngravingObject.instrumentTrackId (heap np p) ∈ ts.
Proof.
  rewrite collectStaffText_as_filter. destruct (score np) as [s |].
  - rewrite list_elem_of_In, List.filter_In, <- list_elem_of_In.
    unfold isCollected. rewrite !andb_true_iff, bool_decide_eq_true.
    rewrite Bool.eqb_true_iff. split.
    + intros (Hin & (Hst & Hf) & Ht). exists s. auto.
    + intros (s' & [= <-] & Hin & Hst & Hf & Ht). auto.
  - split; [intros Hp; apply not_elem_of_nil in Hp as [] |].
    intros (s & Hs & _). discriminate.
Qed.

(** X11. [collectStaffText] returns, in score order, exactly the non-null
    annotations of the chord/rest segments that are staff texts, whose
    having a sound flag matches [withSoundFlags] and whose track is in the
    set; without a score it returns nothing. *)
Theorem collectStaffText_filter (np : NotationPlayback)
    (trackIdSet : gset InstrumentTrackId) (withSoundFlags : bool) :
  collectStaffText np trackIdSet withSoundFlags
  = match score np with
    | None => []
    | Some s =>
        List.filter (isCollected (heap np) trackIdSet withSoundFlags)
          (annotationPointers s)
    end.
Proof. apply collectStaffText_as_filter. Qed.

(** X12. The two modes of [collectStaffText] split the staff texts of the
    given tracks: a staff-text annotation of a loaded score whose track is
    in the set is collected with flags or without flags, never both, and
    nothing else is collected. *)
Theorem collectStaffText_partition (np : NotationPlayback)
    (trackIdSet : gset InstrumentTrackId) (p : ptr) :
  (p ∈ collectStaffText np trackIdSet true
   \/ p ∈ collectStaffText np trackIdSet false
   <-> exists s,
         score np = Some s
         /\ p ∈ annotationPointers s
         /\ EngravingObject.isStaffText (heap np p) = true
         /\ EngravingObject.instrumentTrackId (heap np p) ∈ trackIdSet)
  /\ ~ (p ∈ collectStaffText np trackIdSet true
        /\ p ∈ collectStaffText np trackIdSet false).
Proof.
  rewrite !collectStaffText_elem. split; [split |].
  - intros [(s & ? & ? & ? & ? & ?) | (s & ? & ? & ? & ? & ?)]; eauto.
  - intros (s & Hs & Hin & Hst & Ht).
    destruct (hasSoundFlag (heap np) p) eqn:Hf; [left | right];
      exists s; auto.
  - intros [(s & _ & _ & _ & Hf & _) (s' & _ & _ & _ & Hf' & _)]. congruence.
Qed.

(** Staff texts 1 and 2 play on track (1, violin) and have no flag; the
    null annotation between them is skipped. *)
Example collectStaffText_example :
  collectStaffText loadedPlayback {[ (1%N, "violin"%string) ]} false
  = [1%nat; 2%nat]
  /\ collectStaffText loadedPlayback {[ (1%N, "violin"%string) ]} true = [].
Proof. split; vm_compute; reflexivity. Qed.

(** ** Asking for sound flags *)

(** X13. [hasSoundFlags] is true exactly when the playback model reports
    flags for some track of the set, whatever the order the set is walked
    in; so it is false for the empty set and distributes over unions. *)
Theorem hasSoundFlags_spec (modelHasSoundFlags : InstrumentTrackId -> bool)
    (A B : gset InstrumentTrackId) :
  (hasSoundFlags modelHasSoundFlags A = true
   <-> exists trackId, trackId ∈ A /\ modelHasSoundFlags trackId = true)
  /\ hasSoundFlags modelHasSoundFlags ∅ = false
  /\ hasSoundFlags modelHasSoundFlags (A ∪ B)
     = hasSoundFlags modelHasSoundFlags A || hasSoundFlags modelHasSoundFlags B.
Proof.
  assert (Hiff : forall X,
            hasSoundFlags modelHasSoundFlags X = true
            <-> exists trackId,
                  trackId ∈ X /\ modelHasSoundFlags trackId = true).
  { intros X. unfold hasSoundFlags. rewrite existsb_exists.
    split; intros (t & Ht & Hf); exists t; split; try exact Hf.
    - apply elem_of_elements, list_elem_of_In, Ht.
    - apply list_elem_of_In, elem_of_elements, Ht. }
  split; [apply Hiff |]. split.
  - unfold hasSoundFlags. rewrite elements_empty. reflexivity.
  - apply Bool.eq_iff_eq_true. rewrite orb_true_iff, !Hiff. split.
    + intros (t & Ht & Hf). apply elem_of_union in Ht as [Ht | Ht]; eauto.
    + intros [(t & Ht & Hf) | (t & Ht & Hf)]; exists t;
        (split; [apply elem_of_union; auto | exact Hf]).
Qed.

(** ** Sound flags: what the two operations leave alone *)

Lemma sameButFlags_refl (h : Heap) : sameButFlags h h.
Proof. intros q. reflexivity. Qed.

Lemma sameButFlags_trans (h0 h1 h2 : Heap) :
  sameButFlags h0 h1 -> sameButFlags h1 h2 -> sameButFlags h0 h2.
Proof. intros H01 H12 q. rewrite H12. apply H01. Qed.

Lemma sameButFlags_heapUpdate (p : ptr) (f : option SoundFlag) (h : Heap) :
  sameButFlags h (heapUpdate p (EngravingObject.setSoundFlag f) h).
Proof. intros q. unfold heapUpdate. case_decide; reflexivity. Qed.

Lemma sameButFlags_fields (h h' : Heap) (q : ptr) :
  sameButFlags h h' ->
  EngravingObject.isStaffText (h' q) = EngravingObject.isStaffText (h q)
  /\ EngravingObject.links (h' q) = EngravingObject.links (h q)
  /\ EngravingObject.instrumentTrackId (h' q)
     = EngravingObject.instrumentTrackId (h q)
  /\ EngravingObject.tick (h' q) = EngravingObject.tick (h q).
Proof.
  intros Hsame. specialize (Hsame q).
  repeat split;
    [apply (f_equal EngravingObject.isStaffText) in Hsame
    | apply (f_equal EngravingObject.links) in Hsame
    | apply (f_equal EngravingObject.instrumentTrackId) in Hsame
    | apply (f_equal EngravingObject.tick) in Hsame]; exact Hsame.
Qed.

Lemma addLinkedClone_fold_sameButFlags (p : ptr) (f : SoundFlag)
    (l : list (option ptr)) :
  forall h, sameButFlags h (fold_left (addLinkedClone p f) l h).
Proof.
  induction l as [| a l IH]; intros h; [apply sameButFlags_refl |].
  cbn [fold_left]. eapply sameButFlags_trans; [| apply IH].
  unfold addLinkedClone. destruct a as [o |]; [| apply sameButFlags_refl].
  destruct (_ && _); [| apply sameButFlags_refl].
  apply sameButFlags_heapUpdate.
Qed.

Lemma doAddSoundFlag_sameButFlags (st : option ptr) (h : Heap) :
  sameButFlags h (doAddSoundFlag st h).1.
Proof.
  unfold doAddSoundFlag. destruct st as [p |]; [| apply sameButFlags_refl].
  destruct (hasSoundFlag h p); [apply sameButFlags_refl |].
  destruct (EngravingObject.links _); cbn [fst].
  - eapply sameButFlags_trans; [apply sameButFlags_heapUpdate |].
    apply addLinkedClone_fold_sameButFlags.
  - apply sameButFlags_heapUpdate.
Qed.

Lemma addSoundFlagsLoop_sameButFlags (l : list (option ptr)) :
  forall h added, sameButFlags h (addSoundFlagsLoop l h added).1.
Proof.
  induction l as [| st l IH]; intros h added; [apply sameButFlags_refl |].
  rewrite addSoundFlagsLoop_cons.
  eapply sameButFlags_trans; [apply doAddSoundFlag_sameButFlags | apply IH].
Qed.

Lemma removeLinkedFlag_fold_sameButFlags (p : ptr) (l : list (option ptr)) :
  forall h, sameButFlags h (fold_left (removeLinkedFlag p) l h).
Proof.
  induction l as [| a l IH]; intros h; [apply sameButFlags_refl |].
  cbn [fold_left]. eapply sameButFlags_trans; [| apply IH].
  unfold removeLinkedFlag. destruct a as [o |]; [| apply sameButFlags_refl].
  destruct (_ && _); [| apply sameButFlags_refl].
  destruct (negb _); [apply sameButFlags_refl |].
  apply sameButFlags_heapUpdate.
Qed.

Lemma removeSoundFlag_sameButFlags (h : Heap) (p : ptr) :
  sameButFlags h (removeSoundFlag h p).
Proof.
  unfold removeSoundFlag. destruct (negb _); [apply sameButFlags_refl |].
  destruct (EngravingObject.links _).
  - eapply sameButFlags_trans; [apply sameButFlags_heapUpdate |].
    apply removeLinkedFlag_fold_sameButFlags.
  - apply sameButFlags_heapUpdate.
Qed.

Lemma removeSoundFlag_fold_sameButFlags (l : list ptr) :
  forall h, sameButFlags h (fold_left removeSoundFlag l h).
Proof.
  induction l as [| p l IH]; intros h; [apply sameButFlags_refl |].
  cbn [fold_left].
  eapply sameButFlags_trans; [apply removeSoundFlag_sameButFlags | apply IH].
Qed.

(** The state [addSoundFlags] returns: the score it found and the memory
    its loop leaves. *)
Lemma addSoundFlags_result (l : list (option ptr)) (np np1 : NotationPlayback) :
  addSoundFlags l np = Some np1 ->
  score np1 = score np
  /\ heap np1 = (addSoundFlagsLoop l (heap np) false).1.
Proof.
  unfold addSoundFlags. destruct l as [| st l]; [intros [= <-]; auto |].
  destruct (addSoundFlagsLoop (st :: l) (heap np) false) as [h added].
  destruct added; cbn [fst].
  - cbn [score setHeap]. destruct (score np) as [s |] eqn:Hs; [| discriminate].
    cbn [mbind option_bind]. intros Hrun.
    destruct (notationChanged_notify_frame (setHeap h np) s Hs)
      as (np' & Hrun' & Hheap & Hscore & _).
    assert (np1 = np') as -> by congruence.
    rewrite Hheap, Hscore. cbn. auto.
  - intros [= <-]. auto.
Qed.

Lemma addSoundFlags_returns (l : list (option ptr)) (np : NotationPlayback)
    (s : Score.t) :
  score np = Some s -> exists np1, addSoundFlags l np = Some np1.
Proof.
  intros Hs. unfold addSoundFlags. destruct l as [| st l]; [eauto |].
  destruct (addSoundFlagsLoop (st :: l) (heap np) false) as [h added].
  destruct added; [| eauto]. cbn [score setHeap]. rewrite Hs.
  cbn [mbind option_bind].
  destruct (notationChanged_notify_frame (setHeap h np) s Hs) as (np' & Hrun & _).
  eauto.
Qed.

Lemma existsb_lacks_false (h : Heap) (l : list (option ptr)) :
  (forall p, Some p ∈ l -> hasSoundFlag h p = true) ->
  existsb (lacksSoundFlag h) l = false.
Proof.
  intros Hall. apply not_true_is_false. intros Hex.
  apply existsb_exists in Hex as ([p |] & Hin & Hlack); [| discriminate].
  cbn in Hlack. rewrite (Hall p) in Hlack by (apply list_elem_of_In, Hin).
  discriminate.
Qed.

(** X14. [addSoundFlags] is idempotent: called again with the same list on
    the state it returned, it returns that state, so the second call
    notifies nobody. *)
Theorem addSoundFlags_idempotent (staffTextList : list (option ptr))
    (np np1 : NotationPlayback) :
  addSoundFlags staffTextList np = Some np1 ->
  addSoundFlags staffTextList np1 = Some np1.
Proof.
  intros Hrun. destruct (addSoundFlags_result _ _ _ Hrun) as [_ Hheap].
  destruct (addSoundFlagsLoop_spec staffTextList (heap np) false)
    as (_ & _ & Hall).
  rewrite <- Hheap in Hall.
  unfold addSoundFlags. destruct staffTextList as [| st l]; [reflexivity |].
  rewrite (addSoundFlagsLoop_noop _ _ _ (existsb_lacks_false _ _ Hall)).
  rewrite setHeap_same. reflexivity.
Qed.

Lemma addSoundFlags_idempotent_witness :
  exists np1,
    addSoundFlags [Some 1%nat; None; Some 3%nat] loadedPlayback = Some np1
    /\ addSoundFlags [Some 1%nat; None; Some 3%nat] np1 = Some np1.
Proof.
  eexists. split; [reflexivity |].
  apply (addSoundFlags_idempotent [Some 1%nat; None; Some 3%nat]
           loadedPlayback).
  reflexivity.
Defined.

(** X15. Adding flags to the staff texts [collectStaffText] finds without a
    flag leaves none: on a loaded score
    [addSoundFlags(collectStaffText(trackIdSet, false))] returns, and
    afterwards [collectStaffText(trackIdSet, false)] is empty. *)
Theorem addSoundFlags_collected (trackIdSet : gset InstrumentTrackId)
    (np : NotationPlayback) (s : Score.t) :
  score np = Some s ->
  exists np1,
    addSoundFlags (Some <$> collectStaffText np trackIdSet false) np = Some np1
    /\ collectStaffText np1 trackIdSet false = [].
Proof.
  intros Hs.
  set (l := Some <$> collectStaffText np trackIdSet false).
  destruct (addSoundFlags_returns l np s Hs) as [np1 Hrun].
  exists np1. split; [exact Hrun |].
  destruct (addSoundFlags_result _ _ _ Hrun) as [Hscore Hheap].
  destruct (addSoundFlagsLoop_spec l (heap np) false) as (_ & Hext & Hall).
  pose proof (addSoundFlagsLoop_sameButFlags l (heap np) false) as Hsame.
  rewrite <- Hheap in Hext, Hall, Hsame.
  destruct (collectStaffText np1 trackIdSet false) as [| p rest] eqn:Hc;
    [reflexivity |].
  exfalso.
  assert (Hp : p ∈ collectStaffText np1 trackIdSet false)
    by (rewrite Hc; left).
  apply collectStaffText_elem in Hp as (s1 & Hs1 & Hin & Hst & Hf & Ht).
  destruct (sameButFlags_fields _ _ p Hsame) as (Hst' & _ & Ht' & _).
  assert (Hold : p ∈ collectStaffText np trackIdSet false).
  { apply collectStaffText_elem. exists s1.
    split; [congruence |]. split; [exact Hin |].
    split; [congruence |]. split; [| congruence].
    destruct (hasSoundFlag (heap np) p) eqn:Hf0; [| reflexivity].
    apply (Hext p) in Hf0. congruence. }
  assert (Hflag : hasSoundFlag (heap np1) p = true).
  { apply Hall. subst l. apply list_elem_of_fmap. eauto. }
  congruence.
Qed.

Lemma addSoundFlags_collected_witness :
  exists np1,
    addSoundFlags
      (Some <$> collectStaffText loadedPlayback
                  {[ (1%N, "violin"%string) ]} false) loadedPlayback
    = Some np1
    /\ collectStaffText np1 {[ (1%N, "violin"%string) ]} false = [].
Proof.
  exact (addSoundFlags_collected {[ (1%N, "violin"%string) ]} loadedPlayback
           (exampleScore 0 2000) eq_refl).
Defined.

Lemma soundFlag_remove (o : ptr) (h : Heap) (q : ptr) :
  EngravingObject.soundFlag (remove o h q)
  = if decide (q = o) then None else EngravingObject.soundFlag (h q).
Proof. unfold remove, heapUpdate. case_decide; reflexivity. Qed.

Lemma removeLinkedFlag_fold_other (p : ptr) (l : list (option ptr)) :
  forall (h : Heap) (q : ptr),
    Some q ∉ l ->
    EngravingObject.soundFlag (fold_left (removeLinkedFlag p) l h q)
    = EngravingObject.soundFlag (h q).
Proof.
  induction l as [| a l IH]; intros h q Hq; [reflexivity |].
  cbn [fold_left]. apply not_elem_of_cons in Hq as [Hqa Hql].
  rewrite IH by exact Hql. unfold removeLinkedFlag.
  destruct a as [o |]; [| reflexivity].
  destruct (_ && _); [| reflexivity]. destruct (negb _); [reflexivity |].
  rewrite soundFlag_remove, decide_False by congruence. reflexivity.
Qed.

Lemma removeSoundFlag_other (h : Heap) (p q : ptr) :
  q <> p ->
  Some q ∉ default [] (EngravingObject.links (h p)) ->
  EngravingObject.soundFlag (removeSoundFlag h p q)
  = EngravingObject.soundFlag (h q).
Proof.
  intros Hqp Hq. unfold removeSoundFlag.
  destruct (negb _); [reflexivity |].
  destruct (sameButFlags_fields h (remove p h) p
              (sameButFlags_heapUpdate p None h)) as (_ & -> & _).
  destruct (EngravingObject.links (h p)) as [l |]; cbn [default] in Hq.
  - rewrite removeLinkedFlag_fold_other by exact Hq.
    rewrite soundFlag_remove, decide_False by exact Hqp. reflexivity.
  - rewrite soundFlag_remove, decide_False by exact Hqp. reflexivity.
Qed.

Lemma removeSoundFlag_fold_other (l : list ptr) (q : ptr) :
  forall h : Heap,
    q ∉ l ->
    (forall p lk, p ∈ l -> EngravingObject.links (h p) = Some lk ->
                  Some q ∉ lk) ->
    EngravingObject.soundFlag (fold_left removeSoundFlag l h q)
    = EngravingObject.soundFlag (h q).
Proof.
  induction l as [| p l IH]; intros h Hq Hlinks; [reflexivity |].
  cbn [fold_left]. apply not_elem_of_cons in Hq as [Hqp Hql].
  rewrite IH.
  - apply removeSoundFlag_other; [exact Hqp |].
    destruct (EngravingObject.links (h p)) as [lk |] eqn:Hlk;
      [| apply not_elem_of_nil].
    apply (Hlinks p lk); [left | exact Hlk].
  - exact Hql.
  - intros p' lk Hp' Hlk.
    destruct (sameButFlags_fields h (removeSoundFlag h p) p'
                (removeSoundFlag_sameButFlags h p)) as (_ & Hl & _).
    rewrite Hl in Hlk. apply (Hlinks p' lk); [right; exact Hp' | exact Hlk].
Qed.

(** The state [removeSoundFlags] returns: the score it found and the memory
    its loop leaves. *)
Lemma removeSoundFlags_result (ts : gset InstrumentTrackId)
    (np np1 : NotationPlayback) :
  removeSoundFlags ts np = Some np1 ->
  score np1 = score np
  /\ heap np1
     = fold_left removeSoundFlag (collectStaffText np ts true) (heap np).
Proof.
  unfold removeSoundFlags.
  destruct (collectStaffText np ts true) as [| p l]; [intros [= <-]; auto |].
  set (h := fold_left removeSoundFlag (p :: l) (heap np)).
  cbn [score setHeap]. destruct (score np) as [s |] eqn:Hs; [| discriminate].
  cbn [mbind option_bind]. intros Hrun.
  destruct (notationChanged_notify_frame (reload (setHeap h np)) s Hs)
    as (np' & Hrun' & Hheap & Hscore & _).
  assert (np1 = np') as -> by congruence.
  rewrite Hheap, Hscore. cbn. auto.
Qed.

Lemma removeSoundFlags_returns (ts : gset InstrumentTrackId)
    (np : NotationPlayback) :
  exists np1, removeSoundFlags ts np = Some np1.
Proof.
  pose proof (collectStaffText_no_score np ts true) as Hnone.
  unfold removeSoundFlags.
  destruct (collectStaffText np ts true) as [| p l]; [eauto |].
  destruct (score np) as [s |] eqn:Hs; [| discriminate (Hnone eq_refl)].
  cbn [score setHeap]. rewrite Hs. cbn [mbind option_bind].
  destruct (notationChanged_notify_frame
              (reload (setHeap (fold_left removeSoundFlag (p :: l) (heap np))
                         np)) s Hs) as (np' & Hrun & _).
  eauto.
Qed.

(** X16. After [removeSoundFlags] no staff text of the given tracks carries
    a flag, so [collectStaffText(trackIdSet, true)] is empty and a second
    [removeSoundFlags] with the same set returns the state as it is: no
    further reload, no further notification. *)
Theorem removeSoundFlags_idempotent (trackIdSet : gset InstrumentTrackId)
    (np np1 : NotationPlayback) :
  removeSoundFlags trackIdSet np = Some np1 ->
  collectStaffText np1 trackIdSet true = []
  /\ removeSoundFlags trackIdSet np1 = Some np1.
Proof.
  intros Hrun.
  destruct (removeSoundFlags_result _ _ _ Hrun) as [Hscore Hheap].
  set (l := collectStaffText np trackIdSet true) in *.
  destruct (removeSoundFlag_fold l (heap np)) as [Hgone Hanti].
  pose proof (removeSoundFlag_fold_sameButFlags l (heap np)) as Hsame.
  rewrite <- Hheap in Hgone, Hanti, Hsame.
  assert (Hnone : collectStaffText np1 trackIdSet true = []).
  { destruct (collectStaffText np1 trackIdSet true) as [| p rest] eqn:Hc;
      [reflexivity |].
    exfalso.
    assert (Hp : p ∈ collectStaffText np1 trackIdSet true)
      by (rewrite Hc; left).
    apply collectStaffText_elem in Hp as (s1 & Hs1 & Hin & Hst & Hf & Ht).
    destruct (sameButFlags_fields _ _ p Hsame) as (Hst' & _ & Ht' & _).
    assert (Hold : p ∈ l).
    { apply collectStaffText_elem. exists s1.
      split; [congruence |]. split; [exact Hin |].
      split; [congruence |]. split; [auto | congruence]. }
    rewrite Forall_forall in Hgone. specialize (Hgone p Hold). congruence. }
  split; [exact Hnone |].
  apply removeSoundFlags_nothing_collected, Hnone.
Qed.

Lemma removeSoundFlags_idempotent_witness :
  exists np1,
    removeSoundFlags {[ (2%N, "flute"%string) ]} loadedPlayback = Some np1
    /\ collectStaffText np1 {[ (2%N, "flute"%string) ]} true = []
    /\ removeSoundFlags {[ (2%N, "flute"%string) ]} np1 = Some np1.
Proof.
  destruct (removeSoundFlags_returns {[ (2%N, "flute"%string) ]}
              loadedPlayback) as [np1 Hrun].
  exists np1. split; [exact Hrun |].
  exact (removeSoundFlags_idempotent {[ (2%N, "flute"%string) ]}
           loadedPlayback np1 Hrun).
Defined.

(** X17. [removeSoundFlags] changes sound flags only and never adds one;
    an object that was not collected and is in the links of no collected
    staff text keeps the flag it had. *)
Theorem removeSoundFlags_untouched (trackIdSet : gset InstrumentTrackId)
    (np np1 : NotationPlayback) :
  removeSoundFlags trackIdSet np = Some np1 ->
  score np1 = score np
  /\ sameButFlags (heap np) (heap np1)
  /\ (forall q, hasSoundFlag (heap np1) q = true ->
                hasSoundFlag (heap np) q = true)
  /\ (forall q,
        q ∉ collectStaffText np trackIdSet true ->
        (forall p lk,
           p ∈ collectStaffText np trackIdSet true ->
           EngravingObject.links (heap np p) = Some lk -> Some q ∉ lk) ->
        EngravingObject.soundFlag (heap np1 q)
        = EngravingObject.soundFlag (heap np q)).
Proof.
  intros Hrun.
  destruct (removeSoundFlags_result _ _ _ Hrun) as [Hscore Hheap].
  rewrite Hheap. split; [exact Hscore |].
  split; [apply removeSoundFlag_fold_sameButFlags |].
  split; [apply removeSoundFlag_fold |].
  intros q Hq Hlinks. apply removeSoundFlag_fold_other; assumption.
Qed.

Lemma removeSoundFlags_untouched_witness :
  exists np1,
    removeSoundFlags {[ (2%N, "flute"%string) ]} loadedPlayback = Some np1
    /\ score np1 = score loadedPlayback
    /\ EngravingObject.soundFlag (heap np1 1%nat)
       = EngravingObject.soundFlag (heap loadedPlayback 1%nat).
Proof.
  destruct (removeSoundFlags_returns {[ (2%N, "flute"%string) ]}
              loadedPlayback) as [np1 Hrun].
  destruct (removeSoundFlags_untouched {[ (2%N, "flute"%string) ]}
              loadedPlayback np1 Hrun) as (Hs & _ & _ & Hkeep).
  exists np1. split; [exact Hrun |]. split; [exact Hs |].
  apply Hkeep.
  - vm_compute. intros Hin. inversion Hin as [| ? ? ? Hin']; subst.
    inversion Hin'.
  - intros p lk Hp. vm_compute in Hp.
    inversion Hp as [| ? ? ? Hp']; subst; [discriminate | inversion Hp'].
Defined.

(** X18. [addSoundFlags] changes sound flags only and never reloads the
    playback model: the score and the reload count are as before. *)
Theorem addSoundFlags_no_reload (staffTextList : list (option ptr))
    (np np1 : NotationPlayback) :
  addSoundFlags staffTextList np = Some np1 ->
  score np1 = score np
  /\ sameButFlags (heap np) (heap np1)
  /\ playbackModelReloads np1 = playbackModelReloads np.
Proof.
  intros Hrun. destruct (addSoundFlags_result _ _ _ Hrun) as [Hscore Hheap].
  split; [exact Hscore |]. rewrite Hheap.
  split; [apply addSoundFlagsLoop_sameButFlags |].
  revert Hrun. unfold addSoundFlags.
  destruct staffTextList as [| st l]; [intros [= <-]; reflexivity |].
  destruct (addSoundFlagsLoop (st :: l) (heap np) false) as [h added].
  destruct added; [| intros [= <-]; reflexivity].
  cbn [score setHeap]. destruct (score np) as [s |] eqn:Hs; [| discriminate].
  cbn [mbind option_bind]. intros Hrun.
  destruct (notationChanged_notify_frame (setHeap h np) s Hs)
    as (np' & Hrun' & _ & _ & _ & Hr).
  assert (np1 = np') as -> by congruence. exact Hr.
Qed.

Lemma addSoundFlags_no_reload_witness :
  exists np1,
    addSoundFlags [Some 1%nat; None; Some 3%nat] loadedPlayback = Some np1
    /\ score np1 = score loadedPlayback
    /\ playbackModelReloads np1 = 0%nat.
Proof.
  eexists. split; [reflexivity |].
  destruct (addSoundFlags_no_reload [Some 1%nat; None; Some 3%nat]
              loadedPlayback _ eq_refl) as (Hs & _ & Hr).
  split; [exact Hs | exact Hr].
Defined.

(** X19. One [doAddSoundFlag]: the result is true exactly for a non-null
    staff text without a flag, and otherwise nothing changes; when it is
    true the staff text holds the new flag, every other staff text of its
    links holds a linked clone of that flag (replacing a flag it had), and
    all other flags are as before. *)
Theorem doAddSoundFlag_behaviour (staffText : option ptr) (h : Heap) :
  (doAddSoundFlag staffText h).2 = lacksSoundFlag h staffText
  /\ (lacksSoundFlag h staffText = false ->
      (doAddSoundFlag staffText h).1 = h)
  /\ (forall p q,
        staffText = Some p -> hasSoundFlag h p = false ->
        EngravingObject.soundFlag ((doAddSoundFlag staffText h).1 q)
        = if decide (q = p) then Some (createSoundFlag p)
          else if EngravingObject.isStaffText (h q)
                  && bool_decide
                       (Some q ∈ default [] (EngravingObject.links (h p)))
          then Some (linkedClone (createSoundFlag p))
          else EngravingObject.soundFlag (h q)).
Proof.
  split; [apply doAddSoundFlag_step |]. split.
  - intros Hlack. rewrite (doAddSoundFlag_noop _ _ Hlack). reflexivity.
  - intros p q -> Hp.
    destruct (doAddSoundFlag_spec p h Hp) as [_ Hspec].
    apply (Hspec q).
Qed.

(** A linked staff text that already had a flag gets the clone instead. *)
Example doAddSoundFlag_replaces :
  let h := add 2%nat (createSoundFlag 2%nat) exampleHeap in
  EngravingObject.soundFlag ((doAddSoundFlag (Some 1%nat) h).1 2%nat)
  = Some (linkedClone (createSoundFlag 1%nat)).
Proof. reflexivity. Qed.
